(** * Homomorphic vote tallying: Paillier encryption and Shamir secret sharing

    A shallow embedding of [backend/apps/encryption/paillier.py] and
    [backend/apps/encryption/shamir.py], followed by the properties of the
    cryptographic core.  Python integers are unbounded, so they are modelled
    by [Z]; Python's [//] and [%] round towards minus infinity, as [Z.div] and
    [Z.modulo] do.  Exceptions are explicit results, and the random source is
    an explicit tape of the values it hands out. *)

From Stdlib Require Import ZArith Znumtheory Lia List Bool Permutation.
From Stdlib Require Import Zmod.ZmodInv.
Import ListNotations.
Local Open Scope Z_scope.

(** ** Python semantics used by the two modules *)

Module Py.

(** The exceptions the modelled code can raise.  [Unfinished] is not a
    Python exception: it marks a run that the model cut short, because the
    random tape was too short or a loop ran out of fuel. *)
Inductive exn : Set :=
| ValueError
| ZeroDivisionError
| Unfinished.

Inductive result (A : Type) : Type :=
| Ok (a : A)
| Raise (e : exn).
Arguments Ok {A} a.
Arguments Raise {A} e.

Definition bind {A B} (r : result A) (k : A -> result B) : result B :=
  match r with
  | Ok a => k a
  | Raise e => Raise e
  end.

(** [a // b] *)
Definition floordiv (a b : Z) : result Z :=
  if b =? 0 then Raise ZeroDivisionError else Ok (a / b).

(** [a % b] *)
Definition mod_ (a b : Z) : result Z :=
  if b =? 0 then Raise ZeroDivisionError else Ok (a mod b).

(** [pow(b, e, m)]: a zero modulus is a [ValueError]; a negative exponent
    inverts the base first and is a [ValueError] when the base has no
    inverse. *)
Definition pow (b e m : Z) : result Z :=
  if m =? 0 then Raise ValueError
  else if e <? 0 then
    if Z.gcd b m =? 1 then Ok (Z.invmod b m ^ (- e) mod m)
    else Raise ValueError
  else Ok (b ^ e mod m).

(** [len(l)] *)
Definition len {A} (l : list A) : Z := Z.of_nat (length l).

(** [l[:k]], a negative [k] counting from the end. *)
Definition slice_to {A} (l : list A) (k : Z) : list A :=
  if k <? 0 then firstn (Z.to_nat (len l + k)) l
  else firstn (Z.to_nat k) l.

(** [range(lo, hi)] *)
Definition range (lo hi : Z) : list Z :=
  map (fun i => lo + Z.of_nat i) (seq 0 (Z.to_nat (hi - lo))).

(** A monadic left fold: the body of a [for] loop that may raise. *)
Fixpoint foldM {A B} (f : B -> A -> result B) (l : list A) (acc : B)
  : result B :=
  match l with
  | [] => Ok acc
  | a :: l' => bind (f acc a) (foldM f l')
  end.

(** Randomised code reads its random values from a tape and returns what is
    left of it. *)
Definition Rand (A : Type) : Type := list Z -> result (A * list Z).

Definition ret {A} (a : A) : Rand A := fun tape => Ok (a, tape).

Definition bindR {A B} (m : Rand A) (k : A -> Rand B) : Rand B :=
  fun tape =>
    match m tape with
    | Ok (a, tape') => k a tape'
    | Raise e => Raise e
    end.

Definition lift {A} (r : result A) : Rand A :=
  fun tape =>
    match r with
    | Ok a => Ok (a, tape)
    | Raise e => Raise e
    end.

(** [random.randint(lo, hi)]: the next value of the tape; an empty range is
    a [ValueError].  The tape is expected to hold values of [lo..hi]. *)
Definition randint (lo hi : Z) : Rand Z :=
  fun tape =>
    if hi <? lo then Raise ValueError
    else match tape with
         | [] => Raise Unfinished
         | r :: tape' => Ok (r, tape')
         end.

End Py.

Import Py.

Declare Scope py_scope.
Delimit Scope py_scope with py.
Notation "x <- e ;; k" := (bind e (fun x => k))
  (at level 61, e at next level, right associativity) : py_scope.
Notation "x <~ e ;; k" := (bindR e (fun x => k))
  (at level 61, e at next level, right associativity) : py_scope.
Local Open Scope py_scope.

(** ** PyCryptodome's [Crypto.Util.number] *)

Module CryptoUtil.

(** The loop of [inverse]: extended Euclid on [(u3, v3)], keeping the
    coefficient [u1] of [u].  It stops as soon as [v3 > 0] fails; the fuel
    bounds the number of iterations. *)
Fixpoint inverse_loop (fuel : nat) (u1 v1 u3 v3 : Z) : option (Z * Z) :=
  if 0 <? v3 then
    match fuel with
    | O => None
    | S fuel' =>
        let q := u3 / v3 in
        inverse_loop fuel' v1 (u1 - v1 * q) v3 (u3 - v3 * q)
    end
  else Some (u1, u3).

(** [inverse(u, v)], the inverse of [u] modulo [v]: a zero modulus is a
    [ZeroDivisionError], a negative one a [ValueError], and so is a [u] with
    no inverse.  The closing [while u1 < 0: u1 = u1 + v] is the reduction of
    a negative [u1] modulo [v]. *)
Definition inverse (u v : Z) : result Z :=
  if v =? 0 then Raise ZeroDivisionError
  else if v <? 0 then Raise ValueError
  else
    match inverse_loop (S (Z.to_nat v)) 1 0 u v with
    | None => Raise Unfinished
    | Some (u1, u3) =>
        if negb (u3 =? 1) then Raise ValueError
        else Ok (if u1 <? 0 then u1 mod v else u1)
    end.

(** [getPrime(N)]: a random prime of [N] bits, read from the tape; fewer
    than two bits is a [ValueError]. *)
Definition getPrime (N : Z) : Rand Z :=
  fun tape =>
    if N <? 2 then Raise ValueError
    else match tape with
         | [] => Raise Unfinished
         | p :: tape' => Ok (p, tape')
         end.

End CryptoUtil.

(** ** paillier.py *)

Module Paillier.

Import CryptoUtil.

Record PaillierKeyPair : Set := {
  public_key : Z * Z;
  private_key : Z;
  n : Z;
  g : Z;
  lambda_val : Z;
  mu : Z
}.

(** [PaillierKeyPair.__init__] *)
Definition PaillierKeyPair_init (public_key : Z * Z) (private_key : Z)
  : result PaillierKeyPair :=
  let '(n, g) := public_key in
  mu <- inverse private_key n ;;
  Ok {| public_key := public_key; private_key := private_key;
        n := n; g := g; lambda_val := private_key; mu := mu |}.

(** [PaillierEncryption.__init__]: [key_size or 512]. *)
Definition PaillierEncryption_init (key_size : option Z) : Z :=
  match key_size with
  | Some k => if k =? 0 then 512 else k
  | None => 512
  end.

(** [while p == q: q = getPrime(key_size // 2)] *)
Fixpoint resample_q (fuel : nat) (bits p q : Z) : Rand Z :=
  if p =? q then
    match fuel with
    | O => fun _ => Raise Unfinished
    | S fuel' => q' <~ getPrime bits ;; resample_q fuel' bits p q'
    end
  else ret q.

(** [PaillierEncryption.generate_key_pair] *)
Definition generate_key_pair (key_size : Z) : Rand PaillierKeyPair :=
  let bits := key_size / 2 in
  p <~ getPrime bits ;;
  q <~ getPrime bits ;;
  q <~ (fun tape => resample_q (length tape) bits p q tape) ;;
  let n := p * q in
  let lambda_val := Z.lcm (p - 1) (q - 1) in
  let g := n + 1 in
  mu <~ lift (inverse lambda_val n) ;;
  let public_key := (n, g) in
  let private_key := lambda_val in
  lift (PaillierKeyPair_init public_key private_key).

(** [while math.gcd(r, n) != 1: r = random.randint(1, n - 1)] *)
Fixpoint resample_r (fuel : nat) (n r : Z) : Rand Z :=
  if negb (Z.gcd r n =? 1) then
    match fuel with
    | O => fun _ => Raise Unfinished
    | S fuel' => r' <~ randint 1 (n - 1) ;; resample_r fuel' n r'
    end
  else ret r.

(** [PaillierEncryption.encrypt] *)
Definition encrypt (message : Z) (public_key : Z * Z) : Rand Z :=
  let '(n, g) := public_key in
  if (message <? 0) || (message >=? n) then lift (Raise ValueError)
  else
    r <~ randint 1 (n - 1) ;;
    r <~ (fun tape => resample_r (length tape) n r tape) ;;
    let n_squared := n * n in
    lift (a <- pow g message n_squared ;;
          b <- pow r n n_squared ;;
          mod_ (a * b) n_squared).

(** [PaillierEncryption.decrypt] *)
Definition decrypt (ciphertext : Z) (key_pair : PaillierKeyPair) : result Z :=
  let n := n key_pair in
  let lambda_val := lambda_val key_pair in
  let mu := mu key_pair in
  let n_squared := n * n in
  x <- pow ciphertext lambda_val n_squared ;;
  l_x <- floordiv (x - 1) n ;;
  mod_ (l_x * mu) n.

(** [PaillierEncryption.add_ciphertexts] *)
Definition add_ciphertexts (ciphertext1 ciphertext2 : Z) (public_key : Z * Z)
  : result Z :=
  let '(n, _) := public_key in
  let n_squared := n * n in
  mod_ (ciphertext1 * ciphertext2) n_squared.

(** [PaillierEncryption.multiply_ciphertext] *)
Definition multiply_ciphertext (ciphertext scalar : Z) (public_key : Z * Z)
  : result Z :=
  let '(n, _) := public_key in
  let n_squared := n * n in
  pow ciphertext scalar n_squared.

(** [ThresholdPaillier.partial_decrypt] *)
Definition partial_decrypt (ciphertext private_key_share : Z)
  (key_pair : PaillierKeyPair) : result Z :=
  let n := n key_pair in
  let n_squared := n * n in
  pow ciphertext private_key_share n_squared.

(** [ThresholdPaillier.combine_partial_decryptions] *)
Definition combine_partial_decryptions (partial_results : list Z)
  (key_pair : PaillierKeyPair) : result Z :=
  let n := n key_pair in
  let n_squared := n * n in
  combined <- foldM (fun combined partial => mod_ (combined * partial) n_squared)
                    partial_results 1 ;;
  l_combined <- floordiv (combined - 1) n ;;
  let mu := mu key_pair in
  mod_ (l_combined * mu) n.

(** [VoteEncryption.encrypt_vote] *)
Definition encrypt_vote (vote_value : Z) (public_key : Z * Z) : Rand Z :=
  encrypt vote_value public_key.

(** [VoteEncryption.aggregate_votes] *)
Definition aggregate_votes (encrypted_votes : list Z) (public_key : Z * Z)
  : result Z :=
  match encrypted_votes with
  | [] => Ok 0
  | first :: rest =>
      foldM (fun result vote => add_ciphertexts result vote public_key)
            rest first
  end.

(** [VoteEncryption.verify_vote_encryption] *)
Definition verify_vote_encryption (encrypted_vote : Z) (public_key : Z * Z)
  : bool :=
  let '(n, _) := public_key in
  let n_squared := n * n in
  if (encrypted_vote <=? 0) || (encrypted_vote >=? n_squared) then false
  else if negb (Z.gcd encrypted_vote n =? 1) then false
  else true.

End Paillier.

(** ** shamir.py *)

Module Shamir.

Import CryptoUtil.

Record ShamirSecretSharing : Set := {
  total_shares : Z;
  threshold : Z;
  prime : Z
}.

(** A share is a pair [(share_id, share_value)]. *)
Abbreviation share := (Z * Z)%type (only parsing).

(** [ShamirSecretSharing.__init__] *)
Definition ShamirSecretSharing_init (total_shares threshold : Z)
  (prime : option Z) : Rand ShamirSecretSharing :=
  if threshold >? total_shares then lift (Raise ValueError)
  else
    p <~ match prime with
         | None => getPrime 256
         | Some p => ret p
         end ;;
    ret {| total_shares := total_shares; threshold := threshold; prime := p |}.

Section Instance.

Variable self : ShamirSecretSharing.

(** [ShamirSecretSharing._evaluate_polynomial] *)
Definition _evaluate_polynomial (coefficients : list Z) (x : Z) : result Z :=
  foldM (fun result coefficient => mod_ (result * x + coefficient) (prime self))
        (rev coefficients) 0.

(** [for i in range(1, self.threshold):
       coefficients.append(random.randint(1, self.prime - 1))] *)
Fixpoint draw_coefficients (steps : list Z) (coefficients : list Z)
  : Rand (list Z) :=
  match steps with
  | [] => ret coefficients
  | _ :: steps' =>
      c <~ randint 1 (prime self - 1) ;;
      draw_coefficients steps' (coefficients ++ [c])
  end.

(** [ShamirSecretSharing.generate_shares] *)
Definition generate_shares (secret : Z) : Rand (list share) :=
  if secret >=? prime self then lift (Raise ValueError)
  else
    coefficients <~ draw_coefficients (range 1 (threshold self)) [secret] ;;
    lift (foldM (fun shares i =>
                   share_value <- _evaluate_polynomial coefficients i ;;
                   Ok (shares ++ [(i, share_value)]))
                (range 1 (total_shares self + 1)) []).

(** The local function [extended_gcd] of [_mod_inverse]. *)
Fixpoint extended_gcd (fuel : nat) (a b : Z) : option (Z * Z * Z) :=
  if a =? 0 then Some (b, 0, 1)
  else
    match fuel with
    | O => None
    | S fuel' =>
        match extended_gcd fuel' (b mod a) a with
        | Some (gcd, x1, y1) =>
            let x := y1 - (b / a) * x1 in
            let y := x1 in
            Some (gcd, x, y)
        | None => None
        end
    end.

(** [ShamirSecretSharing._mod_inverse] *)
Definition _mod_inverse (a : Z) : result Z :=
  match extended_gcd (S (Z.abs_nat a)) a (prime self) with
  | None => Raise Unfinished
  | Some (gcd, x, _) =>
      if negb (gcd =? 1) then Raise ValueError
      else
        r <- mod_ x (prime self) ;;
        mod_ (r + prime self) (prime self)
  end.

(** [enumerate(l)] *)
Definition enumerate {A} (l : list A) : list (nat * A) :=
  combine (seq 0 (length l)) l.

(** The inner loop of [reconstruct_secret], for the share at index [i]:
    [for j, (x_j, _) in enumerate(shares)]. *)
Definition numerator_denominator (i : nat) (x_i : Z) (shares : list share)
  : result (Z * Z) :=
  foldM (fun '(numerator, denominator) '(j, (x_j, _)) =>
           if negb (Nat.eqb i j) then
             numerator <- mod_ (numerator * (- x_j)) (prime self) ;;
             denominator <- mod_ (denominator * (x_i - x_j)) (prime self) ;;
             Ok (numerator, denominator)
           else Ok (numerator, denominator))
        (enumerate shares) (1, 1).

(** [ShamirSecretSharing.reconstruct_secret] *)
Definition reconstruct_secret (shares : list share) : result Z :=
  if len shares <? threshold self then Raise ValueError
  else
    let shares := slice_to shares (threshold self) in
    foldM (fun secret '(i, (x_i, y_i)) =>
             nd <- numerator_denominator i x_i shares ;;
             let '(numerator, denominator) := nd in
             inv <- _mod_inverse denominator ;;
             lagrange_coeff <- mod_ (numerator * inv) (prime self) ;;
             mod_ (secret + y_i * lagrange_coeff) (prime self))
          (enumerate shares) 0.

(** [ShamirSecretSharing.verify_share]; the bare [except] turns every
    exception into [False]. *)
Definition verify_share (share : Z * Z) (other_shares : list (Z * Z))
  : bool :=
  if len other_shares <? threshold self - 1 then true
  else
    match (reconstructed <- reconstruct_secret other_shares ;;
           expected_value <- _evaluate_polynomial [reconstructed] (fst share) ;;
           Ok (expected_value =? snd share)) with
    | Ok b => b
    | Raise _ => false
    end.

End Instance.

(** [ThresholdDecryption.partial_decrypt] *)
Definition partial_decrypt (ciphertext private_key_share : Z)
  (public_key : Z * Z) : result Z :=
  let '(n, _) := public_key in
  let n_squared := n * n in
  pow ciphertext private_key_share n_squared.

(** [ThresholdDecryption.combine_partial_decryptions] *)
Definition combine_partial_decryptions (partial_results : list Z)
  (public_key : Z * Z) : result Z :=
  let '(n, _) := public_key in
  let n_squared := n * n in
  combined <- foldM (fun combined partial => mod_ (combined * partial) n_squared)
                    partial_results 1 ;;
  l_combined <- floordiv (combined - 1) n ;;
  Ok l_combined.

End Shamir.

(** ** paillier.py: [ThresholdPaillier] key distribution *)

Module ThresholdPaillier.

Record ThresholdPaillier : Set := {
  total_trustees : Z;
  threshold : Z
}.

(** [ThresholdPaillier.__init__]: [threshold or settings.PAILLIER_THRESHOLD];
    the Django setting is a parameter. *)
Definition ThresholdPaillier_init (PAILLIER_THRESHOLD total_trustees : Z)
  (threshold : option Z) : result ThresholdPaillier :=
  let threshold :=
    match threshold with
    | Some t => if t =? 0 then PAILLIER_THRESHOLD else t
    | None => PAILLIER_THRESHOLD
    end in
  if threshold >? total_trustees then Raise ValueError
  else Ok {| total_trustees := total_trustees; threshold := threshold |}.

(** [ThresholdPaillier.generate_distributed_keys] *)
Definition generate_distributed_keys (self : ThresholdPaillier)
  (key_pair : Paillier.PaillierKeyPair) : Rand (list (Z * Z)) :=
  shamir <~ Shamir.ShamirSecretSharing_init (total_trustees self)
                                            (threshold self) None ;;
  shares <~ Shamir.generate_shares shamir (Paillier.private_key key_pair) ;;
  ret shares.

End ThresholdPaillier.

(** ** shamir.py: [DistributedKeyManager] and [ThresholdDecryption] *)

Module KeyManager.

Record DistributedKeyManager : Set := {
  total_trustees : Z;
  threshold : Z;
  shamir : Shamir.ShamirSecretSharing
}.

(** [DistributedKeyManager.__init__] *)
Definition DistributedKeyManager_init (total_trustees threshold : Z)
  : Rand DistributedKeyManager :=
  shamir <~ Shamir.ShamirSecretSharing_init total_trustees threshold None ;;
  ret {| total_trustees := total_trustees; threshold := threshold;
         shamir := shamir |}.

(** [DistributedKeyManager.distribute_private_key] *)
Definition distribute_private_key (self : DistributedKeyManager)
  (private_key : Z) : Rand (list (Z * Z)) :=
  Shamir.generate_shares (shamir self) private_key.

(** [DistributedKeyManager.reconstruct_private_key] *)
Definition reconstruct_private_key (self : DistributedKeyManager)
  (key_shares : list (Z * Z)) : result Z :=
  Shamir.reconstruct_secret (shamir self) key_shares.

(** [DistributedKeyManager.verify_key_share] *)
Definition verify_key_share (self : DistributedKeyManager)
  (trustee_id key_share : Z) (other_shares : list (Z * Z)) : bool :=
  Shamir.verify_share (shamir self) (trustee_id, key_share) other_shares.

Record ThresholdDecryption : Set := {
  key_manager : DistributedKeyManager
}.

(** [ThresholdDecryption.__init__] *)
Definition ThresholdDecryption_init (total_trustees threshold : Z)
  : Rand ThresholdDecryption :=
  key_manager <~ DistributedKeyManager_init total_trustees threshold ;;
  ret {| key_manager := key_manager |}.

(** [ThresholdDecryption.generate_threshold_keys] *)
Definition generate_threshold_keys (self : ThresholdDecryption)
  (paillier_key_pair : Paillier.PaillierKeyPair) : Rand (list (Z * Z)) :=
  distribute_private_key (key_manager self)
                         (Paillier.private_key paillier_key_pair).

End KeyManager.

(** ** elections/admin.py: the tally of one candidate *)

Module ElectionsAdmin.

(** The part of [decrypt_tally] that turns the ciphertexts collected for one
    candidate into that candidate's tally:
    [reduce(lambda x, y: (x * y) % n_squared, candidate_votes)], then
    [paillier.decrypt] under a [try] that sets the tally to 0 on any
    exception; no ciphertext gives the tally 0.  The reduction is outside
    the [try], so what it raises leaves the function. *)
Definition candidate_tally (candidate_votes : list Z)
  (key_pair : Paillier.PaillierKeyPair) : result Z :=
  match candidate_votes with
  | [] => Ok 0
  | first :: rest =>
      let n := fst (Paillier.public_key key_pair) in
      let n_squared := n ^ 2 in
      aggregated_ciphertext <-
        foldM (fun x y => mod_ (x * y) n_squared) rest first ;;
      match Paillier.decrypt aggregated_ciphertext key_pair with
      | Ok tally => Ok tally
      | Raise _ => Ok 0
      end
  end.

End ElectionsAdmin.

(** * Definitions used to state the properties *)

(** ** Arithmetic *)

Definition coprime_to (m r : Z) : Prop := Z.gcd r m = 1.

Definition product (l : list Z) : Z := fold_right Z.mul 1 l.

Definition total (l : list Z) : Z := fold_right Z.add 0 l.

(** Primality by trial division, for concrete runs. *)
Definition trial_division (p : Z) : bool :=
  (1 <? p) && forallb (fun d => negb (p mod d =? 0)) (range 2 p).

(** ** Paillier *)

(** What [generate_key_pair] builds from two distinct primes. *)
Definition valid_key_pair (kp : Paillier.PaillierKeyPair) : Prop :=
  exists p q : Z,
    Z.prime p /\ Z.prime q /\ p <> q /\
    Paillier.n kp = p * q /\
    Paillier.g kp = Paillier.n kp + 1 /\
    Paillier.public_key kp = (Paillier.n kp, Paillier.g kp) /\
    Paillier.lambda_val kp = Z.lcm (p - 1) (q - 1) /\
    Paillier.private_key kp = Paillier.lambda_val kp /\
    (Paillier.lambda_val kp * Paillier.mu kp) mod Paillier.n kp = 1.

(** [c] is a ciphertext of [m]: some call of [encrypt] returned it. *)
Definition encrypts (public_key : Z * Z) (m c : Z) : Prop :=
  exists tape tape', Paillier.encrypt m public_key tape = Ok (c, tape').

(** The product of the partial decryptions, reduced at every step. *)
Definition combined (m : Z) (partial_results : list Z) : Z :=
  fold_left (fun acc partial => (acc * partial) mod (m * m)) partial_results 1.

(** The combination rule of the specification: the product of the partial
    decryptions modulo [n * n], then [L(x) * mu mod n] with
    [L(x) = (x - 1) div n]. *)
Definition combine_spec (partial_results : list Z) (m mu : Z) : Z :=
  ((combined m partial_results - 1) / m * mu) mod m.

(** The key pair of the primes 3 and 5. *)
Definition key_pair_15 : Paillier.PaillierKeyPair :=
  {| Paillier.public_key := (15, 16); Paillier.private_key := 4;
     Paillier.n := 15; Paillier.g := 16;
     Paillier.lambda_val := 4; Paillier.mu := 4 |}.

(** ** Polynomials *)

(** The value of the polynomial with coefficients [f], lowest degree
    first. *)
Definition peval (f : list Z) (x : Z) : Z :=
  fold_right (fun c acc => c + x * acc) 0 f.

(** The quotient of [f] by [X - a]. *)
Fixpoint pquot (a : Z) (f : list Z) : list Z :=
  match f with
  | [] => []
  | _ :: f' =>
      match f' with
      | [] => []
      | _ :: _ => peval f' a :: pquot a f'
      end
  end.

Fixpoint padd (f g : list Z) : list Z :=
  match f, g with
  | [], _ => g
  | _, [] => f
  | a :: f', b :: g' => (a + b) :: padd f' g'
  end.

Definition pscale (c : Z) (f : list Z) : list Z := map (Z.mul c) f.

(** [(X - a) * f] *)
Definition pmul_linear (a : Z) (f : list Z) : list Z :=
  padd (0 :: f) (pscale (- a) f).

(** The product of [X - a] over the [a] of a list. *)
Definition plinear (roots : list Z) : list Z :=
  fold_right pmul_linear [1] roots.

Definition psum (fs : list (list Z)) : list Z := fold_right padd [] fs.

(** The list without its element at index [i]. *)
Definition others {A} (i : nat) (l : list A) : list A :=
  firstn i l ++ skipn (S i) l.

(** The denominator of the [i]-th Lagrange basis polynomial. *)
Definition basis_denominator (xs : list Z) (i : nat) : Z :=
  product (map (fun x_j => nth i xs 0 - x_j) (others i xs)).

(** The Lagrange interpolant of a list of points, as a list of
    coefficients; [inv] inverts the denominators. *)
Definition interpolant (inv : Z -> Z) (points : list (Z * Z)) : list Z :=
  let xs := map fst points in
  let ys := map snd points in
  psum (map (fun i =>
               pscale (nth i ys 0 * inv (basis_denominator xs i))
                      (plinear (others i xs)))
            (seq 0 (length points))).

(** ** Shamir *)

(** The value [_mod_inverse] returns when it returns. *)
Definition mod_inverse_value (P a : Z) : Z :=
  match Shamir.extended_gcd (S (Z.abs_nat a)) a P with
  | Some (_, x, _) => (x mod P + P) mod P
  | None => 0
  end.

(** The polynomial that [generate_shares] builds from the tape. *)
Definition share_polynomial (self : Shamir.ShamirSecretSharing) (secret : Z)
  (tape : list Z) : list Z :=
  secret :: firstn (length (range 1 (Shamir.threshold self))) tape.

(** The inverse that [reconstruct_secret] applies to a denominator. *)
Definition denominator_inverse (self : Shamir.ShamirSecretSharing) (d : Z)
  : Z :=
  mod_inverse_value (Shamir.prime self) (d mod Shamir.prime self).

(** The term that the share at index [i] adds to the secret. *)
Definition lagrange_term (self : Shamir.ShamirSecretSharing)
  (shares : list (Z * Z)) (i : nat) : Z :=
  let xs := map fst shares in
  nth i (map snd shares) 0
  * ((product (map Z.opp (others i xs)) mod Shamir.prime self
      * denominator_inverse self (basis_denominator xs i))
     mod Shamir.prime self).

(** The candidate lies on the polynomial interpolated from the other
    shares. *)
Definition on_interpolant (self : Shamir.ShamirSecretSharing)
  (candidate : Z * Z) (other_shares : list (Z * Z)) : bool :=
  peval (interpolant (fun d => Z.invmod d (Shamir.prime self)) other_shares)
        (fst candidate) mod Shamir.prime self
  =? snd candidate.

(** All the tapes of [k] values of [1 .. P-1]: the equally likely outcomes
    of the [k] calls of [random.randint(1, P - 1)]. *)
Fixpoint coefficient_tapes (P : Z) (k : nat) : list (list Z) :=
  match k with
  | O => [[]]
  | S k' => flat_map (fun c => map (cons c) (coefficient_tapes P k'))
                     (range 1 P)
  end.

(** The shares with the given identifiers, for every tape: the distribution
    of what the holders of these shares see. *)
Definition views (self : Shamir.ShamirSecretSharing) (secret : Z)
  (ids : list Z) : list (result (list (Z * Z))) :=
  map (fun tape =>
         match Shamir.generate_shares self secret tape with
         | Ok (shares, _) =>
             Ok (filter (fun s => existsb (Z.eqb (fst s)) ids) shares)
         | Raise e => Raise e
         end)
      (coefficient_tapes (Shamir.prime self)
                         (Z.to_nat (Shamir.threshold self - 1))).

Definition sharing_5_3_7 : Shamir.ShamirSecretSharing :=
  {| Shamir.total_shares := 5; Shamir.threshold := 3; Shamir.prime := 7 |}.

Definition sharing_1_1_5 : Shamir.ShamirSecretSharing :=
  {| Shamir.total_shares := 1; Shamir.threshold := 1; Shamir.prime := 5 |}.

Definition sharing_7_2_5 : Shamir.ShamirSecretSharing :=
  {| Shamir.total_shares := 7; Shamir.threshold := 2; Shamir.prime := 5 |}.

Definition sharing_3_2_7 : Shamir.ShamirSecretSharing :=
  {| Shamir.total_shares := 3; Shamir.threshold := 2; Shamir.prime := 7 |}.

Definition sharing_2_2_5 : Shamir.ShamirSecretSharing :=
  {| Shamir.total_shares := 2; Shamir.threshold := 2; Shamir.prime := 5 |}.

(** ** Further definitions *)

(** A list comprehension whose body may raise. *)
Fixpoint mapM {A B} (f : A -> result B) (l : list A) : result (list B) :=
  match l with
  | [] => Ok []
  | a :: l' => b <- f a ;; bs <- mapM f l' ;; Ok (b :: bs)
  end.

(** The key pair with another decryption exponent. *)
Definition with_exponent (kp : Paillier.PaillierKeyPair) (e : Z)
  : Paillier.PaillierKeyPair :=
  {| Paillier.public_key := Paillier.public_key kp;
     Paillier.private_key := e;
     Paillier.n := Paillier.n kp;
     Paillier.g := Paillier.g kp;
     Paillier.lambda_val := e;
     Paillier.mu := Paillier.mu kp |}.

(** The lower bound in the contract of [getPrime(N)]: a prime of [N] bits
    is above [2^(N-1)], which is no prime for [N >= 3]. *)
Definition above_bits (N p : Z) : Prop := 2 ^ (N - 1) < p.

(** A key pair of 512 bits, from the draws [2^255 + 1] and [2^255 + 3]. *)
Definition key_pair_512 : Paillier.PaillierKeyPair :=
  let p := 2 ^ 255 + 1 in
  let q := 2 ^ 255 + 3 in
  {| Paillier.public_key := (p * q, p * q + 1);
     Paillier.private_key := Z.lcm (p - 1) (q - 1);
     Paillier.n := p * q;
     Paillier.g := p * q + 1;
     Paillier.lambda_val := Z.lcm (p - 1) (q - 1);
     Paillier.mu := 2234634654990432849929004166367641021246560970098732229620593573953627338345668357526470593824766285271677768302983188465402740844684066713744216920773972 |}.

(** * Properties *)

(** ** Arithmetic modulo [n] and [n * n] *)

Section Congruences.

Lemma cong_divide (a b m : Z) : a mod m = b mod m <-> (m | a - b).
Proof.
  rewrite Z.cong_iff_ex. split; intros [k Hk]; exists k; lia.
Qed.

(** [(1 + k n)^e = 1 + e k n] modulo [n * n]. *)
Lemma pow_one_plus_multiple (n k : Z) (e : nat) :
  (n * n | (1 + k * n) ^ Z.of_nat e - (1 + Z.of_nat e * k * n)).
Proof.
  induction e as [|e [t Ht]].
  - exists 0. simpl. lia.
  - rewrite Nat2Z.inj_succ, Z.pow_succ_r by lia.
    exists (t * (1 + k * n) + Z.of_nat e * k * k).
    replace ((1 + k * n) ^ Z.of_nat e)
      with (t * (n * n) + (1 + Z.of_nat e * k * n)) by lia.
    ring.
Qed.

Lemma pow_one_plus_multiple_mod (n k e : Z) :
  0 <= e -> (1 + k * n) ^ e mod (n * n) = (1 + e * k * n) mod (n * n).
Proof.
  intros He. apply cong_divide.
  pose proof (pow_one_plus_multiple n k (Z.to_nat e)) as H.
  rewrite Z2Nat.id in H by lia. exact H.
Qed.

(** A power of a number congruent to 1 is congruent to 1. *)
Lemma pow_cong_one (a m e : Z) : 0 <= e -> (m | a - 1) -> (m | a ^ e - 1).
Proof.
  intros He [k Hk]. revert e He.
  apply (natlike_ind (fun e => (m | a ^ e - 1))).
  - exists 0. simpl. lia.
  - intros e He [t Ht]. rewrite Z.pow_succ_r by lia.
    exists (k * a ^ e + t).
    replace (a * a ^ e - 1) with ((a - 1) * a ^ e + (a ^ e - 1)) by ring.
    rewrite Hk, Ht. ring.
Qed.

(** Fermat's little theorem, for an exponent that is a multiple of
    [p - 1]. *)
Lemma fermat_multiple (p r e : Z) :
  Z.prime p -> Z.gcd r p = 1 -> 0 <= e -> (p - 1 | e) -> (p | r ^ e - 1).
Proof.
  intros Hp Hr He [k Hk]. pose proof (Z.prime_ge_2 _ Hp) as Hp2.
  assert (Hk0 : 0 <= k) by nia.
  subst e. rewrite Z.mul_comm, Z.pow_mul_r by lia.
  apply pow_cong_one; [lia|].
  apply cong_divide. rewrite (Z.mod_small 1) by lia.
  apply Z.fermat_nz; [exact Hp|].
  intros H0. apply Z.mod_divide in H0; [|lia].
  assert (Hd : (p | Z.gcd r p)) by (apply Z.gcd_greatest; [exact H0 | apply Z.divide_refl]).
  rewrite Hr in Hd. apply Z.divide_1_r in Hd. lia.
Qed.

End Congruences.

(** ** The Paillier decryption identity *)

Section PaillierCore.

Variables p q : Z.
Hypothesis Hp : Z.prime p.
Hypothesis Hq : Z.prime q.
Hypothesis Hpq : p <> q.

Let n := p * q.
Let lam := Z.lcm (p - 1) (q - 1).

Lemma modulus_ge_4 : 4 <= n.
Proof.
  pose proof (Z.prime_ge_2 _ Hp). pose proof (Z.prime_ge_2 _ Hq).
  subst n. nia.
Qed.

Lemma lam_nonneg : 0 <= lam.
Proof. apply Z.lcm_nonneg. Qed.

Lemma coprime_factor_l (r : Z) : Z.gcd r n = 1 -> Z.gcd r p = 1.
Proof.
  intros H. pose proof (Z.gcd_nonneg r p) as Hn.
  assert (Hd : (Z.gcd r p | Z.gcd r n)).
  { apply Z.gcd_greatest; [apply Z.gcd_divide_l|].
    apply Z.divide_trans with p; [apply Z.gcd_divide_r|].
    exists q. subst n. ring. }
  rewrite H in Hd. apply Z.divide_1_r in Hd. lia.
Qed.

Lemma coprime_factor_r (r : Z) : Z.gcd r n = 1 -> Z.gcd r q = 1.
Proof.
  intros H. pose proof (Z.gcd_nonneg r q) as Hn.
  assert (Hd : (Z.gcd r q | Z.gcd r n)).
  { apply Z.gcd_greatest; [apply Z.gcd_divide_l|].
    apply Z.divide_trans with q; [apply Z.gcd_divide_r|].
    exists p. subst n. ring. }
  rewrite H in Hd. apply Z.divide_1_r in Hd. lia.
Qed.

Lemma factors_coprime : Z.gcd p q = 1.
Proof.
  apply Z.coprime_prime_l; [exact Hp|].
  intros Hd. apply Hpq. apply Z.divide_prime_prime; assumption.
Qed.

(** [r^lam = 1] modulo [n], for [r] coprime to [n]. *)
Lemma pow_lam_cong_one (r : Z) : Z.gcd r n = 1 -> (n | r ^ lam - 1).
Proof.
  intros Hr.
  pose proof (Z.prime_ge_2 _ Hp). pose proof (Z.prime_ge_2 _ Hq).
  assert (H1 : (p | r ^ lam - 1)).
  { apply fermat_multiple; auto using coprime_factor_l, lam_nonneg.
    apply Z.divide_lcm_l. }
  assert (H2 : (q | r ^ lam - 1)).
  { apply fermat_multiple; auto using coprime_factor_r, lam_nonneg.
    apply Z.divide_lcm_r. }
  pose proof (Z.lcm_least _ _ _ H1 H2) as Hl.
  assert (E : Z.lcm p q = n).
  { pose proof factors_coprime as Hc.
    apply Z.gcd_1_lcm_mul in Hc; [|lia|lia]. rewrite Hc. subst n.
    apply Z.abs_eq. nia. }
  rewrite E in Hl. exact Hl.
Qed.

(** [(r^n)^lam = 1] modulo [n * n]. *)
Lemma pow_n_lam_cong_one (r : Z) :
  Z.gcd r n = 1 -> (n * n | (r ^ n) ^ lam - 1).
Proof.
  intros Hr. pose proof modulus_ge_4. pose proof lam_nonneg.
  destruct (pow_lam_cong_one r Hr) as [k Hk].
  rewrite <- Z.pow_mul_r by lia.
  rewrite (Z.mul_comm n lam), Z.pow_mul_r by lia.
  replace (r ^ lam) with (1 + k * n) by lia.
  destruct (pow_one_plus_multiple n k (Z.to_nat n)) as [t Ht].
  rewrite Z2Nat.id in Ht by lia.
  exists (t + k). lia.
Qed.

(** What [decrypt] computes from a ciphertext congruent to
    [(1 + n)^m * r^n]. *)
Lemma decrypt_identity (c m r mu : Z) :
  0 <= m ->
  Z.gcd r n = 1 ->
  (lam * mu) mod n = 1 ->
  c mod (n * n) = ((1 + n) ^ m * r ^ n) mod (n * n) ->
  ((c ^ lam mod (n * n) - 1) / n * mu) mod n = m mod n.
Proof.
  intros Hm Hr Hmu Hc.
  pose proof modulus_ge_4 as Hn. pose proof lam_nonneg as Hl.
  assert (Hx : c ^ lam mod (n * n) = (1 + m * lam * n) mod (n * n)).
  { rewrite <- Z.mod_pow_l, Hc, Z.mod_pow_l.
    rewrite Z.pow_mul_l, <- Z.pow_mul_r by lia.
    apply cong_divide.
    destruct (pow_one_plus_multiple n 1 (Z.to_nat (m * lam))) as [t Ht].
    rewrite Z2Nat.id, Z.mul_1_l, Z.mul_1_r in Ht by nia.
    destruct (pow_n_lam_cong_one r Hr) as [s Hs].
    exists (t * (r ^ n) ^ lam + (1 + m * lam * n) * s).
    replace ((1 + n) ^ (m * lam)) with (t * (n * n) + (1 + m * lam * n)) by lia.
    replace ((r ^ n) ^ lam) with (s * (n * n) + 1) by lia.
    ring. }
  assert (Hx' : c ^ lam mod (n * n) = 1 + (m * lam) mod n * n).
  { rewrite Hx. symmetry.
    apply Z.mod_unique with (q := (m * lam) / n).
    - left. pose proof (Z.mod_pos_bound (m * lam) n ltac:(lia)). nia.
    - pose proof (Z.div_mod (m * lam) n ltac:(lia)). nia. }
  rewrite Hx'.
  replace (1 + (m * lam) mod n * n - 1) with ((m * lam) mod n * n) by ring.
  rewrite Z.div_mul by lia.
  rewrite Z.mul_mod_idemp_l by lia.
  rewrite <- Z.mul_assoc, <- Z.mul_mod_idemp_r, Hmu, Z.mul_1_r by lia.
  reflexivity.
Qed.

(** The ciphertext of [encrypt] is coprime to [n], hence non-zero. *)
Lemma ciphertext_coprime (m r : Z) :
  0 <= m -> Z.gcd r n = 1 ->
  Z.gcd (((1 + n) ^ m * r ^ n) mod (n * n)) n = 1.
Proof.
  intros Hm Hr. pose proof modulus_ge_4 as Hn.
  assert (H1 : Z.coprime ((1 + n) ^ m * r ^ n) n).
  { apply Z.coprime_mul_l; apply Z.coprime_pow_l; try lia; [|exact Hr].
    apply Z.coprime_Bezout. exists 1, (-1). ring. }
  assert (Hd : (n | n * n)) by (exists n; ring).
  apply Z.coprime_mod_l_iff.
  rewrite Z.mod_mod_divide by exact Hd.
  apply Z.coprime_mod_l_iff. exact H1.
Qed.

End PaillierCore.

(** ** Key generation *)

Section KeyGeneration.

Import CryptoUtil Paillier.

(** Case analysis on the first test or call of a computation that is known
    to return. *)
Ltac step H :=
  match type of H with
  | context [if ?b then _ else _] =>
      let E := fresh "E" in destruct b eqn:E; try discriminate H
  | context [match ?x with _ => _ end] =>
      let E := fresh "E" in destruct x eqn:E; try discriminate H
  end.

Lemma inverse_loop_invariant (u v : Z) (fuel : nat) :
  forall u1 v1 u3 v3 a b,
    (v | u1 * u - u3) -> (v | v1 * u - v3) ->
    inverse_loop fuel u1 v1 u3 v3 = Some (a, b) ->
    (v | a * u - b).
Proof.
  induction fuel as [|fuel IH]; intros u1 v1 u3 v3 a b H1 H3 H; simpl in H.
  - step H. injection H as <- <-. exact H1.
  - step H.
    + eapply IH; [exact H3| |exact H].
      destruct H1 as [s Hs], H3 as [t Ht].
      exists (s - u3 / v3 * t). lia.
    + injection H as <- <-. exact H1.
Qed.

Lemma inverse_loop_terminates (fuel : nat) :
  forall u1 v1 u3 v3,
    v3 < Z.of_nat fuel -> inverse_loop fuel u1 v1 u3 v3 <> None.
Proof.
  induction fuel as [|fuel IH]; intros u1 v1 u3 v3 Hf; simpl.
  - destruct (Z.ltb_spec 0 v3); [lia|discriminate].
  - destruct (Z.ltb_spec 0 v3); [|discriminate].
    apply IH. pose proof (Z.mod_pos_bound u3 v3 ltac:(lia)) as Hb.
    rewrite Z.mod_eq in Hb by lia. lia.
Qed.

(** [inverse] returns an inverse, and only gives up by raising. *)
Lemma inverse_sound (u v m : Z) :
  inverse u v = Ok m -> 0 < v /\ (u * m) mod v = 1 mod v.
Proof.
  unfold inverse. intros H.
  destruct (Z.eqb_spec v 0); [discriminate|].
  destruct (Z.ltb_spec v 0); [discriminate|].
  destruct (inverse_loop _ 1 0 u v) as [[u1 u3]|] eqn:E; [|discriminate].
  destruct (Z.eqb_spec u3 1); [|discriminate]. simpl in H. subst u3.
  split; [lia|].
  apply inverse_loop_invariant with (u := u) (v := v) in E;
    [|exists 0; lia|exists (-1); lia].
  assert (Hm : m mod v = u1 mod v).
  { injection H as <-. destruct (u1 <? 0); [apply Z.mod_mod; lia|reflexivity]. }
  rewrite <- Z.mul_mod_idemp_r, Hm, Z.mul_mod_idemp_r by lia.
  apply cong_divide. rewrite Z.mul_comm. exact E.
Qed.

Lemma inverse_finishes (u v : Z) : inverse u v <> Raise Unfinished.
Proof.
  unfold inverse.
  destruct (Z.eqb_spec v 0); [discriminate|].
  destruct (Z.ltb_spec v 0); [discriminate|].
  destruct (inverse_loop _ 1 0 u v) as [[u1 u3]|] eqn:E.
  - destruct (negb (u3 =? 1)); discriminate.
  - exfalso. revert E. apply inverse_loop_terminates. lia.
Qed.

Lemma resample_q_spec (fuel : nat) (bits p : Z) :
  forall q tape q' tape',
    Z.prime q -> Forall Z.prime tape ->
    resample_q fuel bits p q tape = Ok (q', tape') ->
    Z.prime q' /\ p <> q'.
Proof.
  induction fuel as [|fuel IH]; intros q tape q' tape' Hq Ht H; simpl in H.
  - destruct (Z.eqb_spec p q); [discriminate|].
    injection H as <- <-. auto.
  - destruct (Z.eqb_spec p q).
    + unfold bindR, getPrime in H.
      destruct (bits <? 2); [discriminate|].
      destruct tape as [|q0 tape0]; [discriminate|].
      inversion Ht; subst. eapply IH; eauto.
    + injection H as <- <-. auto.
Qed.

Lemma generate_key_pair_valid (key_size : Z) (tape tape' : list Z)
  (kp : PaillierKeyPair) :
  Forall Z.prime tape ->
  generate_key_pair key_size tape = Ok (kp, tape') ->
  valid_key_pair kp.
Proof.
  intros Ht H. unfold generate_key_pair, bindR, lift, floordiv, getPrime in H.
  simpl in H.
  destruct (key_size / 2 <? 2); [discriminate|].
  destruct tape as [|p tape]; [discriminate|].
  destruct tape as [|q tape]; [discriminate|].
  inversion Ht as [|? ? Hp Ht1]; subst. inversion Ht1 as [|? ? Hq Ht2]; subst.
  destruct (resample_q _ _ p q tape) as [[q' tape1]|] eqn:Eq; [|discriminate].
  apply resample_q_spec in Eq; auto. destruct Eq as [Hq' Hne].
  destruct (inverse _ _) as [mu0|] eqn:Ei; [|discriminate].
  unfold PaillierKeyPair_init, bind in H. simpl in H.
  injection H as <- <-.
  apply inverse_sound in Ei. destruct Ei as [Hpos Hinv].
  exists p, q'. simpl.
  do 8 (split; [solve [auto]|]).
  rewrite Hinv. apply Z.mod_small.
  pose proof (Z.prime_ge_2 _ Hp). pose proof (Z.prime_ge_2 _ Hq'). nia.
Qed.

End KeyGeneration.

(** ** Encryption and decryption *)

Section Encryption.

Import CryptoUtil Paillier.

Lemma resample_r_coprime (fuel : nat) (m : Z) :
  forall r tape r' tape',
    resample_r fuel m r tape = Ok (r', tape') -> coprime_to m r'.
Proof.
  induction fuel as [|fuel IH]; intros r tape r' tape' H; simpl in H.
  - destruct (Z.eqb_spec (Z.gcd r m) 1); [|discriminate].
    injection H as <- <-. assumption.
  - destruct (Z.eqb_spec (Z.gcd r m) 1).
    + injection H as <- <-. assumption.
    + simpl in H. unfold bindR, randint in H.
      destruct (m - 1 <? 1); [discriminate|].
      destruct tape as [|r0 tape0]; [discriminate|]. eauto.
Qed.

Lemma resample_r_returns (m : Z) (Hm : 2 <= m) (fuel : nat) :
  forall r tape,
    (length tape <= fuel)%nat ->
    Exists (coprime_to m) (r :: tape) ->
    exists r' tape', resample_r fuel m r tape = Ok (r', tape').
Proof.
  induction fuel as [|fuel IH]; intros r tape Hl Hex; simpl.
  - destruct (Z.eqb_spec (Z.gcd r m) 1); simpl; [eexists _, _; reflexivity|].
    destruct tape; [|simpl in Hl; lia].
    inversion Hex as [? ? H0|? ? H0]; subst; [contradiction|inversion H0].
  - destruct (Z.eqb_spec (Z.gcd r m) 1); simpl; [eexists _, _; reflexivity|].
    unfold bindR, randint.
    destruct (Z.ltb_spec (m - 1) 1); [lia|].
    inversion Hex as [? ? H0|? ? H0]; subst; [contradiction|].
    destruct tape as [|r0 tape0]; [inversion H0|].
    apply IH; [simpl in Hl; lia|exact H0].
Qed.

(** What a returning call of [encrypt] has computed. *)
Lemma encrypt_sound (message m gen c : Z) (tape tape' : list Z) :
  encrypt message (m, gen) tape = Ok (c, tape') ->
  0 <= message < m /\
  exists r, coprime_to m r /\
            c = (gen ^ message mod (m * m) * (r ^ m mod (m * m))) mod (m * m).
Proof.
  unfold encrypt. intros H.
  destruct (Z.ltb_spec message 0); [discriminate|].
  destruct (Z.geb_spec message m); [discriminate|]. simpl in H.
  split; [lia|].
  unfold bindR at 1 in H. unfold randint in H.
  destruct (m - 1 <? 1); [discriminate|].
  destruct tape as [|r0 tape0]; [discriminate|].
  unfold bindR in H.
  destruct (resample_r _ m r0 tape0) as [[r tape1]|] eqn:Er; [|discriminate].
  apply resample_r_coprime in Er. exists r. split; [exact Er|].
  unfold lift, Py.pow, mod_, bind in H.
  destruct (Z.eqb_spec (m * m) 0); [nia|].
  destruct (Z.ltb_spec message 0); [lia|].
  destruct (Z.ltb_spec m 0); [lia|].
  simpl in H. destruct (Z.eqb_spec (m * m) 0); [nia|].
  injection H as <- <-. reflexivity.
Qed.

(** [encrypt] returns as soon as the tape holds one value coprime to the
    modulus. *)
Lemma encrypt_returns (message m gen : Z) (tape : list Z) :
  2 <= m -> 0 <= message < m ->
  Exists (coprime_to m) tape ->
  exists c tape', encrypt message (m, gen) tape = Ok (c, tape').
Proof.
  intros Hm Hr Hex. unfold encrypt.
  destruct (Z.ltb_spec message 0); [lia|].
  destruct (Z.geb_spec message m); [lia|]. simpl.
  unfold bindR at 1. unfold randint.
  destruct (Z.ltb_spec (m - 1) 1); [lia|].
  destruct tape as [|r0 tape0]; [inversion Hex|].
  unfold bindR.
  destruct (resample_r_returns m Hm (length tape0) r0 tape0 (le_n _) Hex)
    as (r & tape1 & ->).
  unfold lift, Py.pow, mod_, bind.
  destruct (Z.eqb_spec (m * m) 0); [nia|].
  destruct (Z.ltb_spec message 0); [lia|].
  destruct (Z.ltb_spec m 0); [lia|].
  simpl. destruct (Z.eqb_spec (m * m) 0); [nia|].
  eexists _, _. reflexivity.
Qed.

(** [decrypt] for a positive modulus and a non-negative exponent. *)
Lemma decrypt_eq (c : Z) (kp : PaillierKeyPair) :
  0 < n kp -> 0 <= lambda_val kp ->
  decrypt c kp =
  Ok (((c ^ lambda_val kp mod (n kp * n kp) - 1) / n kp * mu kp) mod n kp).
Proof.
  intros Hn Hl. unfold decrypt, Py.pow, floordiv, mod_, bind.
  destruct (Z.eqb_spec (n kp * n kp) 0); [nia|].
  destruct (Z.ltb_spec (lambda_val kp) 0); [lia|].
  destruct (Z.eqb_spec (n kp) 0); [lia|]. reflexivity.
Qed.

(** Decryption of anything congruent to [(1 + n)^m * r^n]. *)
Lemma decrypt_cong (kp : PaillierKeyPair) (c m r : Z) :
  valid_key_pair kp ->
  0 <= m -> coprime_to (n kp) r ->
  c mod (n kp * n kp) = ((1 + n kp) ^ m * r ^ n kp) mod (n kp * n kp) ->
  decrypt c kp = Ok (m mod n kp).
Proof.
  intros (p & q & Hp & Hq & Hpq & Hn & Hg & Hpk & Hl & Hpriv & Hmu) Hm Hr Hc.
  pose proof (modulus_ge_4 p q Hp Hq) as H4.
  rewrite decrypt_eq; [|lia|rewrite Hl; apply Z.lcm_nonneg].
  f_equal. rewrite Hl, Hn in *.
  apply (decrypt_identity p q Hp Hq Hpq c m r (mu kp)); assumption.
Qed.

End Encryption.

(** ** Small primes for concrete runs *)

Lemma in_range (lo hi x : Z) : In x (range lo hi) <-> lo <= x < hi.
Proof.
  unfold range. rewrite in_map_iff. split.
  - intros (i & <- & Hi). apply in_seq in Hi. lia.
  - intros Hx. exists (Z.to_nat (x - lo)). split; [lia|].
    apply in_seq. lia.
Qed.

Lemma trial_division_sound (p : Z) : trial_division p = true -> Z.prime p.
Proof.
  unfold trial_division. intros H. apply andb_prop in H. destruct H as [H1 H2].
  apply Z.ltb_lt in H1. split; [exact H1|].
  intros d Hd Hdiv. rewrite forallb_forall in H2.
  specialize (H2 d (proj2 (in_range 2 p d) ltac:(lia))).
  apply Z.mod_divide in Hdiv; [|lia]. rewrite Hdiv in H2. discriminate.
Qed.

(** ** Round trip and homomorphic addition *)

Section RoundTrip.

Import Paillier.

(** C1.  A message of [0 .. n-1] encrypted under a generated key pair
    decrypts to itself, whatever random values encryption reads, as long as
    one of them is coprime to [n] so that the sampling loop ends. *)
Theorem paillier_round_trip (key_size : Z) (ptape ptape' : list Z)
  (kp : PaillierKeyPair) (message : Z) (rtape : list Z) :
  Forall Z.prime ptape ->
  generate_key_pair key_size ptape = Ok (kp, ptape') ->
  0 <= message < n kp ->
  Exists (coprime_to (n kp)) rtape ->
  exists c rtape',
    encrypt message (public_key kp) rtape = Ok (c, rtape') /\
    decrypt c kp = Ok message.
Proof.
  intros Hprimes Hgen Hm Hex.
  pose proof (generate_key_pair_valid _ _ _ _ Hprimes Hgen) as Hv.
  pose proof Hv as (p & q & Hp & Hq & Hpq & Hn & Hg & Hpk & Hrest).
  pose proof (modulus_ge_4 p q Hp Hq) as H4. rewrite <- Hn in H4.
  rewrite Hpk.
  destruct (encrypt_returns message (n kp) (g kp) rtape ltac:(lia) Hm Hex)
    as (c & rtape' & Henc).
  exists c, rtape'. split; [exact Henc|].
  apply encrypt_sound in Henc. destruct Henc as (_ & r & Hr & ->).
  rewrite <- (Z.mod_small message (n kp)) at 2 by lia.
  apply decrypt_cong with (r := r); [exact Hv|lia|exact Hr|].
  rewrite Z.mod_mod by nia. rewrite <- Z.mul_mod by nia.
  rewrite Hg, (Z.add_comm (n kp) 1). reflexivity.
Qed.

Lemma paillier_round_trip_witness :
  exists c rtape',
    encrypt 7 (public_key key_pair_15) [3; 2] = Ok (c, rtape') /\
    decrypt c key_pair_15 = Ok 7.
Proof.
  apply (paillier_round_trip 6 [3; 5] [] key_pair_15 7 [3; 2]).
  - repeat constructor; apply trial_division_sound; reflexivity.
  - reflexivity.
  - simpl; lia.
  - apply Exists_cons_tl, Exists_cons_hd. reflexivity.
Defined.

(** C2.  The product of two fresh ciphertexts decrypts to the sum of the two
    plaintexts modulo [n], whatever random values the two encryptions read. *)
Theorem paillier_homomorphic_addition (key_size : Z) (ptape ptape' : list Z)
  (kp : PaillierKeyPair) (m1 m2 : Z) (rtape1 rtape2 : list Z) :
  Forall Z.prime ptape ->
  generate_key_pair key_size ptape = Ok (kp, ptape') ->
  0 <= m1 < n kp ->
  0 <= m2 < n kp ->
  Exists (coprime_to (n kp)) rtape1 ->
  Exists (coprime_to (n kp)) rtape2 ->
  exists c1 rtape1' c2 rtape2' c,
    encrypt m1 (public_key kp) rtape1 = Ok (c1, rtape1') /\
    encrypt m2 (public_key kp) rtape2 = Ok (c2, rtape2') /\
    add_ciphertexts c1 c2 (public_key kp) = Ok c /\
    decrypt c kp = Ok ((m1 + m2) mod n kp).
Proof.
  intros Hprimes Hgen Hm1 Hm2 Hex1 Hex2.
  pose proof (generate_key_pair_valid _ _ _ _ Hprimes Hgen) as Hv.
  pose proof Hv as (p & q & Hp & Hq & Hpq & Hn & Hg & Hpk & Hrest).
  pose proof (modulus_ge_4 p q Hp Hq) as H4. rewrite <- Hn in H4.
  rewrite Hpk.
  destruct (encrypt_returns m1 (n kp) (g kp) rtape1 ltac:(lia) Hm1 Hex1)
    as (c1 & rtape1' & Henc1).
  destruct (encrypt_returns m2 (n kp) (g kp) rtape2 ltac:(lia) Hm2 Hex2)
    as (c2 & rtape2' & Henc2).
  exists c1, rtape1', c2, rtape2', ((c1 * c2) mod (n kp * n kp)).
  split; [exact Henc1|]. split; [exact Henc2|].
  split.
  { unfold add_ciphertexts, mod_.
    destruct (Z.eqb_spec (n kp * n kp) 0); [nia|reflexivity]. }
  apply encrypt_sound in Henc1. destruct Henc1 as (_ & r1 & Hr1 & ->).
  apply encrypt_sound in Henc2. destruct Henc2 as (_ & r2 & Hr2 & ->).
  apply decrypt_cong with (r := r1 * r2); [exact Hv|lia| |].
  { apply Z.coprime_mul_l; assumption. }
  rewrite Z.mod_mod by nia.
  rewrite <- (Z.mul_mod (g kp ^ m1) (r1 ^ n kp)) by nia.
  rewrite <- (Z.mul_mod (g kp ^ m2) (r2 ^ n kp)) by nia.
  rewrite <- Z.mul_mod by nia.
  rewrite Hg, (Z.add_comm (n kp) 1).
  rewrite Z.pow_add_r, Z.pow_mul_l by lia.
  f_equal. ring.
Qed.

Lemma paillier_homomorphic_addition_witness :
  exists c1 rtape1' c2 rtape2' c,
    encrypt 7 (public_key key_pair_15) [2] = Ok (c1, rtape1') /\
    encrypt 12 (public_key key_pair_15) [5; 4] = Ok (c2, rtape2') /\
    add_ciphertexts c1 c2 (public_key key_pair_15) = Ok c /\
    decrypt c key_pair_15 = Ok ((7 + 12) mod n key_pair_15).
Proof.
  apply (paillier_homomorphic_addition 6 [3; 5] [] key_pair_15 7 12 [2] [5; 4]).
  - repeat constructor; apply trial_division_sound; reflexivity.
  - reflexivity.
  - simpl; lia.
  - simpl; lia.
  - apply Exists_cons_hd. reflexivity.
  - apply Exists_cons_tl, Exists_cons_hd. reflexivity.
Defined.

(** C9.  [verify_vote_encryption] rejects every integer outside
    [1 .. n*n - 1], and accepts every ciphertext [encrypt] returns under a
    generated key pair: such a ciphertext lies in that range and is coprime
    to [n]. *)
Theorem verify_vote_encryption_shape :
  (forall (public_key : Z * Z) (c : Z),
      ~ (1 <= c < fst public_key * fst public_key) ->
      verify_vote_encryption c public_key = false) /\
  (forall (key_size : Z) (ptape ptape' : list Z) (kp : PaillierKeyPair)
          (message : Z) (rtape : list Z),
      Forall Z.prime ptape ->
      generate_key_pair key_size ptape = Ok (kp, ptape') ->
      0 <= message < n kp ->
      Exists (coprime_to (n kp)) rtape ->
      exists c rtape',
        encrypt message (public_key kp) rtape = Ok (c, rtape') /\
        1 <= c < n kp * n kp /\
        Z.gcd c (n kp) = 1 /\
        verify_vote_encryption c (public_key kp) = true).
Proof.
  split.
  - intros [m gen] c Hc. simpl in Hc. unfold verify_vote_encryption.
    destruct (Z.leb_spec c 0); [reflexivity|].
    destruct (Z.geb_spec c (m * m)); [reflexivity|lia].
  - intros key_size ptape ptape' kp message rtape Hprimes Hgen Hm Hex.
    pose proof (generate_key_pair_valid _ _ _ _ Hprimes Hgen) as Hv.
    pose proof Hv as (p & q & Hp & Hq & Hpq & Hn & Hg & Hpk & Hrest).
    pose proof (modulus_ge_4 p q Hp Hq) as H4. rewrite <- Hn in H4.
    rewrite Hpk.
    destruct (encrypt_returns message (n kp) (g kp) rtape ltac:(lia) Hm Hex)
      as (c & rtape' & Henc).
    exists c, rtape'. split; [exact Henc|].
    apply encrypt_sound in Henc. destruct Henc as (_ & r & Hr & Hc).
    rewrite <- Z.mul_mod in Hc by nia.
    rewrite Hg, (Z.add_comm (n kp) 1) in Hc.
    assert (Hcop : Z.gcd c (n kp) = 1).
    { rewrite Hc, Hn. apply ciphertext_coprime; try assumption; [lia|].
      rewrite <- Hn. exact Hr. }
    assert (Hrange : 1 <= c < n kp * n kp).
    { pose proof (Z.mod_pos_bound ((1 + n kp) ^ message * r ^ n kp)
                    (n kp * n kp) ltac:(nia)) as Hb.
      rewrite <- Hc in Hb.
      destruct (Z.eq_dec c 0) as [->|]; [|lia].
      rewrite Z.gcd_0_l in Hcop. lia. }
    repeat split; try lia.
    unfold verify_vote_encryption.
    destruct (Z.leb_spec c 0); [lia|].
    destruct (Z.geb_spec c (n kp * n kp)); [lia|]. simpl.
    rewrite Hcop. reflexivity.
Qed.

Lemma verify_vote_encryption_shape_witness :
  verify_vote_encryption 225 (public_key key_pair_15) = false /\
  exists c rtape',
    encrypt 7 (public_key key_pair_15) [3; 2] = Ok (c, rtape') /\
    1 <= c < n key_pair_15 * n key_pair_15 /\
    Z.gcd c (n key_pair_15) = 1 /\
    verify_vote_encryption c (public_key key_pair_15) = true.
Proof.
  split.
  - apply (proj1 verify_vote_encryption_shape). simpl. lia.
  - apply (proj2 verify_vote_encryption_shape 6 [3; 5] [] key_pair_15 7 [3; 2]).
    + repeat constructor; apply trial_division_sound; reflexivity.
    + reflexivity.
    + simpl; lia.
    + apply Exists_cons_tl, Exists_cons_hd. reflexivity.
Defined.

End RoundTrip.

(** ** Aggregation *)

Section Aggregation.

Import Paillier.

Lemma total_cons (a : Z) (l : list Z) : total (a :: l) = a + total l.
Proof. reflexivity. Qed.

Lemma product_permutation (l l' : list Z) :
  Permutation l l' -> product l = product l'.
Proof.
  induction 1 as [|x l l' _ IH|x y l|l l' l'' _ IH1 _ IH2]; simpl.
  - reflexivity.
  - rewrite IH. reflexivity.
  - ring.
  - congruence.
Qed.

(** The fold of [aggregate_votes], for a non-zero modulus. *)
Lemma aggregate_fold (public_key : Z * Z) (rest : list Z) :
  fst public_key <> 0 -> rest <> [] ->
  forall acc,
    foldM (fun result vote => add_ciphertexts result vote public_key) rest acc
    = Ok ((acc * product rest) mod (fst public_key * fst public_key)).
Proof.
  destruct public_key as [m gen]. simpl. intros Hm.
  assert (Hmm : m * m <> 0) by nia.
  induction rest as [|c rest IH]; intros Hne acc; [contradiction|].
  cbn [foldM]. unfold mod_ at 1.
  destruct (Z.eqb_spec (m * m) 0); [contradiction|]. cbn [bind].
  destruct rest as [|c' rest].
  - simpl. rewrite Z.mul_1_r. reflexivity.
  - rewrite IH by discriminate.
    rewrite Z.mul_mod_idemp_l by assumption.
    change (product (c :: c' :: rest)) with (c * product (c' :: rest)).
    rewrite Z.mul_assoc. reflexivity.
Qed.

(** With a zero modulus the first addition raises. *)
Lemma aggregate_fold_zero (gen : Z) (rest : list Z) :
  rest <> [] ->
  forall acc,
    foldM (fun result vote => add_ciphertexts result vote (0, gen)) rest acc
    = Raise ZeroDivisionError.
Proof.
  destruct rest as [|c rest]; intros Hne acc; [contradiction|]. reflexivity.
Qed.

Lemma aggregate_votes_permutation (public_key : Z * Z) (cs cs' : list Z) :
  Permutation cs cs' ->
  aggregate_votes cs public_key = aggregate_votes cs' public_key.
Proof.
  intros Hperm.
  destruct cs as [|c1 [|c2 cs]].
  - apply Permutation_nil in Hperm. subst. reflexivity.
  - apply Permutation_length_1_inv in Hperm. subst. reflexivity.
  - pose proof (Permutation_length Hperm) as Hlen.
    destruct cs' as [|d1 [|d2 cs']]; try discriminate Hlen.
    pose proof (product_permutation _ _ Hperm) as Hprod.
    unfold aggregate_votes.
    destruct (Z.eq_dec (fst public_key) 0) as [Hz|Hnz].
    + destruct public_key as [m gen]. simpl in Hz. subst m.
      rewrite !aggregate_fold_zero by discriminate. reflexivity.
    + rewrite !aggregate_fold by (assumption || discriminate).
      f_equal. f_equal. exact Hprod.
Qed.

(** A non-empty aggregate is congruent to the product of its members. *)
Lemma aggregate_votes_cong (public_key : Z * Z) (cs : list Z) :
  fst public_key <> 0 -> cs <> [] ->
  exists a,
    aggregate_votes cs public_key = Ok a /\
    a mod (fst public_key * fst public_key)
    = product cs mod (fst public_key * fst public_key).
Proof.
  intros Hm Hne. destruct cs as [|c [|c' rest]]; [contradiction| |].
  - exists c. split; [reflexivity|]. simpl. rewrite Z.mul_1_r. reflexivity.
  - unfold aggregate_votes. rewrite aggregate_fold by (assumption || discriminate).
    eexists. split; [reflexivity|]. apply Z.mod_mod. nia.
Qed.

(** The product of ciphertexts is a ciphertext of the sum, up to
    congruence. *)
Lemma product_encrypted (m : Z) (ms cs : list Z) :
  0 < m ->
  Forall2 (encrypts (m, m + 1)) ms cs ->
  0 <= total ms /\
  exists r, coprime_to m r /\
    product cs mod (m * m) = ((1 + m) ^ total ms * r ^ m) mod (m * m).
Proof.
  intros Hm. induction 1 as [|m0 c ms cs (tape & tape' & Henc) _ IH].
  - split; [simpl; lia|]. exists 1. split; [apply Z.gcd_1_l|].
    simpl. rewrite Z.pow_1_l by lia. reflexivity.
  - destruct IH as (Ht & r & Hr & Hprod).
    apply encrypt_sound in Henc. destruct Henc as (Hm0 & r0 & Hr0 & ->).
    split; [simpl; lia|]. exists (r0 * r). split.
    { apply Z.coprime_mul_l; assumption. }
    change (product (?c :: cs)) with (c * product cs).
    change (total (m0 :: ms)) with (m0 + total ms).
    rewrite <- Z.mul_mod by nia.
    rewrite Z.mul_mod_idemp_l by nia.
    rewrite <- Z.mul_mod_idemp_r, Hprod, Z.mul_mod_idemp_r by nia.
    rewrite (Z.add_comm m 1), Z.pow_add_r, Z.pow_mul_l by lia.
    f_equal. ring.
Qed.

(** C7.  [add_ciphertexts] is commutative and associative; therefore
    [aggregate_votes] returns the same value for every ordering of its
    input, which decrypts alike; and for a non-empty list of ciphertexts
    returned by [encrypt] under a generated key pair that value decrypts to
    the sum of the votes modulo [n]. *)
Theorem aggregation_order_irrelevant :
  (forall (public_key : Z * Z) (c1 c2 : Z),
      add_ciphertexts c1 c2 public_key = add_ciphertexts c2 c1 public_key) /\
  (forall (public_key : Z * Z) (c1 c2 c3 : Z),
      (c12 <- add_ciphertexts c1 c2 public_key ;;
       add_ciphertexts c12 c3 public_key)
      = (c23 <- add_ciphertexts c2 c3 public_key ;;
         add_ciphertexts c1 c23 public_key)) /\
  (forall (kp : PaillierKeyPair) (cs cs' : list Z),
      Permutation cs cs' ->
      aggregate_votes cs (public_key kp) = aggregate_votes cs' (public_key kp) /\
      (a <- aggregate_votes cs (public_key kp) ;; decrypt a kp)
      = (a <- aggregate_votes cs' (public_key kp) ;; decrypt a kp)) /\
  (forall (key_size : Z) (ptape ptape' : list Z) (kp : PaillierKeyPair)
          (votes cs cs' : list Z),
      Forall Z.prime ptape ->
      generate_key_pair key_size ptape = Ok (kp, ptape') ->
      Forall2 (encrypts (public_key kp)) votes cs ->
      cs <> [] ->
      Permutation cs cs' ->
      exists a,
        aggregate_votes cs' (public_key kp) = Ok a /\
        decrypt a kp = Ok (total votes mod n kp)).
Proof.
  split; [|split; [|split]].
  - intros [m gen] c1 c2. unfold add_ciphertexts.
    rewrite Z.mul_comm. reflexivity.
  - intros [m gen] c1 c2 c3. unfold add_ciphertexts, mod_.
    destruct (Z.eqb_spec (m * m) 0); [reflexivity|]. simpl.
    destruct (Z.eqb_spec (m * m) 0); [contradiction|].
    rewrite Z.mul_mod_idemp_l, Z.mul_mod_idemp_r, Z.mul_assoc by assumption.
    reflexivity.
  - intros kp cs cs' Hperm.
    rewrite (aggregate_votes_permutation _ _ _ Hperm). split; reflexivity.
  - intros key_size ptape ptape' kp votes cs cs' Hprimes Hgen Henc Hne Hperm.
    pose proof (generate_key_pair_valid _ _ _ _ Hprimes Hgen) as Hv.
    pose proof Hv as (p & q & Hp & Hq & Hpq & Hn & Hg & Hpk & Hrest).
    pose proof (modulus_ge_4 p q Hp Hq) as H4. rewrite <- Hn in H4.
    rewrite <- (aggregate_votes_permutation _ _ _ Hperm).
    rewrite Hpk in *. rewrite Hg in Henc.
    destruct (aggregate_votes_cong (n kp, g kp) cs ltac:(simpl; lia) Hne)
      as (a & Ha & Hcong).
    simpl in Hcong. exists a. split; [exact Ha|].
    destruct (product_encrypted (n kp) votes cs ltac:(lia) Henc)
      as (Ht & r & Hr & Hprod).
    apply decrypt_cong with (r := r); try assumption.
    rewrite Hcong. exact Hprod.
Qed.

Lemma aggregation_order_irrelevant_witness :
  (aggregate_votes [38; 199; 88] (public_key key_pair_15)
   = aggregate_votes [88; 38; 199] (public_key key_pair_15) /\
   (a <- aggregate_votes [38; 199; 88] (public_key key_pair_15) ;;
    decrypt a key_pair_15)
   = (a <- aggregate_votes [88; 38; 199] (public_key key_pair_15) ;;
      decrypt a key_pair_15)) /\
  exists a,
    aggregate_votes [88; 38; 199] (public_key key_pair_15) = Ok a /\
    decrypt a key_pair_15 = Ok (total [1; 0; 1] mod n key_pair_15).
Proof.
  assert (Hperm : Permutation [38; 199; 88] [88; 38; 199]).
  { apply Permutation_sym. apply (Permutation_cons_app [38; 199] []).
    apply Permutation_refl. }
  destruct aggregation_order_irrelevant as (_ & _ & Hsame & Hsum).
  split.
  - apply (Hsame key_pair_15 [38; 199; 88] [88; 38; 199]). exact Hperm.
  - apply (Hsum 6 [3; 5] [] key_pair_15 [1; 0; 1] [38; 199; 88]).
    + repeat constructor; apply trial_division_sound; reflexivity.
    + reflexivity.
    + repeat constructor.
      * exists [2], []. reflexivity.
      * exists [4], []. reflexivity.
      * exists [7], []. reflexivity.
    + discriminate.
    + exact Hperm.
Defined.

Lemma verify_vote_encryption_true (c m gen : Z) :
  verify_vote_encryption c (m, gen) = true <->
  0 < c < m * m /\ Z.gcd c m = 1.
Proof.
  unfold verify_vote_encryption.
  destruct (Z.leb_spec c 0); simpl; [split; [discriminate|lia]|].
  destruct (Z.geb_spec c (m * m)); simpl; [split; [discriminate|lia]|].
  destruct (Z.eqb_spec (Z.gcd c m) 1); simpl; split;
    try discriminate; intuition lia.
Qed.

Lemma coprime_mod_square (x m : Z) :
  Z.gcd x m = 1 -> Z.gcd (x mod (m * m)) m = 1.
Proof.
  intros H. assert (Hd : (m | m * m)) by (exists m; ring).
  apply Z.coprime_mod_l_iff. rewrite Z.mod_mod_divide by exact Hd.
  apply Z.coprime_mod_l_iff. exact H.
Qed.

Lemma product_coprime (m : Z) (cs : list Z) :
  Forall (fun c => Z.gcd c m = 1) cs -> Z.gcd (product cs) m = 1.
Proof.
  induction 1 as [|c cs Hc _ IH]; simpl.
  - apply Z.gcd_1_l.
  - apply Z.coprime_mul_l; assumption.
Qed.

(** C8, as the code has it.  The empty list aggregates to [0]; a non-empty
    list of integers that pass [verify_vote_encryption] aggregates to an
    integer that passes it too, hence not to [0];
    [verify_vote_encryption] rejects [0] under every public key; and
    [decrypt] raises nothing on [0]: under a generated key pair it returns
    [(- mu) mod n]. *)
Theorem aggregate_sentinel :
  (forall public_key : Z * Z, aggregate_votes [] public_key = Ok 0) /\
  (forall (public_key : Z * Z) (cs : list Z),
      cs <> [] ->
      Forall (fun c => verify_vote_encryption c public_key = true) cs ->
      exists a,
        aggregate_votes cs public_key = Ok a /\
        verify_vote_encryption a public_key = true /\ a <> 0) /\
  (forall public_key : Z * Z, verify_vote_encryption 0 public_key = false) /\
  (forall (key_size : Z) (ptape ptape' : list Z) (kp : PaillierKeyPair),
      Forall Z.prime ptape ->
      generate_key_pair key_size ptape = Ok (kp, ptape') ->
      decrypt 0 kp = Ok ((- mu kp) mod n kp)).
Proof.
  split; [|split; [|split]].
  - reflexivity.
  - intros [m gen] cs Hne Hall.
    assert (Hall' : Forall (fun c => 0 < c < m * m /\ Z.gcd c m = 1) cs).
    { eapply Forall_impl; [|exact Hall].
      intros c Hc. apply verify_vote_encryption_true in Hc. exact Hc. }
    assert (Hcop : Forall (fun c => Z.gcd c m = 1) cs).
    { eapply Forall_impl; [|exact Hall']. intros c Hc. apply Hc. }
    destruct cs as [|c [|c' rest]]; [contradiction| |].
    + exists c. inversion Hall; subst. inversion Hall'; subst.
      repeat split; [assumption|lia].
    + assert (Hm : 1 < m * m) by (inversion Hall'; subst; lia).
      assert (Hm0 : m <> 0) by nia.
      unfold aggregate_votes.
      rewrite aggregate_fold by (simpl; assumption || discriminate).
      eexists. split; [reflexivity|]. simpl fst.
      change (c * product (c' :: rest)) with (product (c :: c' :: rest)).
      pose proof (product_coprime m _ Hcop) as Hp.
      apply coprime_mod_square in Hp.
      pose proof (Z.mod_pos_bound (product (c :: c' :: rest)) (m * m)
                    ltac:(lia)) as Hb.
      assert (Hnz : product (c :: c' :: rest) mod (m * m) <> 0).
      { intros Hz. rewrite Hz, Z.gcd_0_l in Hp. nia. }
      split; [|exact Hnz].
      apply verify_vote_encryption_true. split; [lia|exact Hp].
  - intros [m gen]. reflexivity.
  - intros key_size ptape ptape' kp Hprimes Hgen.
    pose proof (generate_key_pair_valid _ _ _ _ Hprimes Hgen)
      as (p & q & Hp & Hq & Hpq & Hn & Hg & Hpk & Hl & Hpriv & Hmu).
    pose proof (modulus_ge_4 p q Hp Hq) as H4. rewrite <- Hn in H4.
    assert (Hl0 : 0 <= lambda_val kp) by (rewrite Hl; apply Z.lcm_nonneg).
    assert (Hl1 : lambda_val kp <> 0).
    { intros Hz. rewrite Hz, Z.mul_0_l, Z.mod_0_l in Hmu by lia. lia. }
    rewrite decrypt_eq by lia. f_equal.
    rewrite Z.pow_0_l by lia. rewrite Z.mod_0_l by nia.
    replace ((0 - 1) / n kp) with (-1).
    + f_equal; ring.
    + apply Z.div_unique with (r := n kp - 1); lia.
Qed.

Lemma aggregate_sentinel_witness :
  (exists a,
      aggregate_votes [38; 199; 88] (public_key key_pair_15) = Ok a /\
      verify_vote_encryption a (public_key key_pair_15) = true /\ a <> 0) /\
  decrypt 0 key_pair_15 = Ok ((- mu key_pair_15) mod n key_pair_15).
Proof.
  destruct aggregate_sentinel as (_ & Hvalid & _ & Hdecrypt).
  split.
  - apply Hvalid; [discriminate|]. repeat constructor.
  - apply (Hdecrypt 6 [3; 5] []).
    + repeat constructor; apply trial_division_sound; reflexivity.
    + reflexivity.
Defined.

(** C8 as stated fails twice: a non-empty list can aggregate to [0], and
    [decrypt] takes the sentinel like any other integer. *)
Lemma aggregate_sentinel_counterexample :
  ~ (forall (cs : list Z) (public_key : Z * Z),
        aggregate_votes cs public_key = Ok 0 <-> cs = []) /\
  aggregate_votes [15; 15] (public_key key_pair_15) = Ok 0 /\
  (a <- aggregate_votes [] (public_key key_pair_15) ;; decrypt a key_pair_15)
  = Ok 11.
Proof.
  split; [|split; reflexivity].
  intros H. specialize (H [0] (15, 16)).
  destruct H as [H _]. specialize (H eq_refl). discriminate H.
Qed.

(** C10.  A single vote is returned as it is, for every integer and every
    public key: nothing is validated or reduced. *)
Theorem aggregate_votes_singleton (c : Z) (public_key : Z * Z) :
  aggregate_votes [c] public_key = Ok c.
Proof. reflexivity. Qed.

End Aggregation.

(** ** Combining partial decryptions *)

Section Combination.

Lemma combined_fold (m : Z) (partial_results : list Z) :
  m <> 0 ->
  forall acc,
    foldM (fun c partial => mod_ (c * partial) (m * m)) partial_results acc
    = Ok (fold_left (fun c partial => (c * partial) mod (m * m))
                    partial_results acc).
Proof.
  intros Hm. assert (Hmm : m * m <> 0) by nia.
  induction partial_results as [|c rest IH]; intros acc; [reflexivity|].
  cbn [foldM fold_left]. unfold mod_ at 1.
  destruct (Z.eqb_spec (m * m) 0); [contradiction|]. apply IH.
Qed.

(** [ThresholdPaillier.combine_partial_decryptions] follows the rule. *)
Lemma paillier_combine_refines (partial_results : list Z)
  (kp : Paillier.PaillierKeyPair) :
  Paillier.n kp <> 0 ->
  Paillier.combine_partial_decryptions partial_results kp
  = Ok (combine_spec partial_results (Paillier.n kp) (Paillier.mu kp)).
Proof.
  intros Hn. unfold Paillier.combine_partial_decryptions.
  rewrite combined_fold by assumption. unfold bind, floordiv, mod_.
  destruct (Z.eqb_spec (Paillier.n kp) 0); [contradiction|]. reflexivity.
Qed.

(** [ThresholdDecryption.combine_partial_decryptions] stops after [L]. *)
Lemma shamir_combine_value (partial_results : list Z) (m gen : Z) :
  m <> 0 ->
  Shamir.combine_partial_decryptions partial_results (m, gen)
  = Ok ((combined m partial_results - 1) / m).
Proof.
  intros Hm. unfold Shamir.combine_partial_decryptions.
  rewrite combined_fold by assumption. unfold bind, floordiv.
  destruct (Z.eqb_spec m 0); [contradiction|]. reflexivity.
Qed.

(** C5.  The two implementations differ: on the single partial decryption
    [16] under the key pair of 3 and 5, the one of paillier.py returns the
    value of the rule, [4], and the one of shamir.py returns [L(16) = 1],
    without the multiplication by [mu] and the reduction modulo [n]. *)
Theorem combine_partial_decryptions_differ :
  combine_spec [16] (Paillier.n key_pair_15) (Paillier.mu key_pair_15) = 4 /\
  Paillier.combine_partial_decryptions [16] key_pair_15 = Ok 4 /\
  Shamir.combine_partial_decryptions [16] (Paillier.public_key key_pair_15)
  = Ok 1.
Proof. repeat split. Qed.

End Combination.

(** ** Polynomials over the integers, counted modulo a prime *)

Section Polynomials.

Lemma peval_pquot (a : Z) (f : list Z) (x : Z) :
  peval f x = peval f a + (x - a) * peval (pquot a f) x.
Proof.
  induction f as [|c f IH]; [simpl; ring|].
  destruct f as [|c' f]; [simpl; ring|].
  change (peval (c :: c' :: f) x) with (c + x * peval (c' :: f) x).
  change (peval (c :: c' :: f) a) with (c + a * peval (c' :: f) a).
  change (pquot a (c :: c' :: f))
    with (peval (c' :: f) a :: pquot a (c' :: f)).
  change (peval (peval (c' :: f) a :: pquot a (c' :: f)) x)
    with (peval (c' :: f) a + x * peval (pquot a (c' :: f)) x).
  rewrite IH. ring.
Qed.

Lemma length_pquot (a : Z) (f : list Z) :
  length (pquot a f) = pred (length f).
Proof.
  induction f as [|c f IH]; [reflexivity|].
  destruct f as [|c' f]; [reflexivity|].
  change (pquot a (c :: c' :: f))
    with (peval (c' :: f) a :: pquot a (c' :: f)).
  simpl length in *. rewrite IH. reflexivity.
Qed.

Lemma peval_padd (f g : list Z) (x : Z) :
  peval (padd f g) x = peval f x + peval g x.
Proof.
  revert g. induction f as [|a f IH]; intros [|b g]; simpl; try ring.
  fold (peval (padd f g) x) (peval f x) (peval g x). rewrite IH. ring.
Qed.

Lemma length_padd (f g : list Z) :
  length (padd f g) = Nat.max (length f) (length g).
Proof.
  revert g. induction f as [|a f IH]; intros [|b g]; simpl; auto.
Qed.

Lemma peval_pscale (c : Z) (f : list Z) (x : Z) :
  peval (pscale c f) x = c * peval f x.
Proof.
  induction f as [|a f IH]; simpl; [ring|].
  fold (pscale c f) (peval (pscale c f) x) (peval f x). rewrite IH. ring.
Qed.

Lemma length_pscale (c : Z) (f : list Z) : length (pscale c f) = length f.
Proof. apply length_map. Qed.

Lemma peval_pmul_linear (a : Z) (f : list Z) (x : Z) :
  peval (pmul_linear a f) x = (x - a) * peval f x.
Proof.
  unfold pmul_linear. rewrite peval_padd, peval_pscale.
  change (peval (0 :: f) x) with (0 + x * peval f x). ring.
Qed.

Lemma length_pmul_linear (a : Z) (f : list Z) :
  length (pmul_linear a f) = S (length f).
Proof.
  unfold pmul_linear. rewrite length_padd, length_pscale.
  cbn [length]. apply Nat.max_l. lia.
Qed.

Lemma peval_plinear (roots : list Z) (x : Z) :
  peval (plinear roots) x = product (map (fun a => x - a) roots).
Proof.
  induction roots as [|a roots IH].
  - unfold plinear, peval, product. cbn [fold_right map]. ring.
  - simpl plinear. rewrite peval_pmul_linear, IH. reflexivity.
Qed.

Lemma length_plinear (roots : list Z) :
  length (plinear roots) = S (length roots).
Proof.
  induction roots as [|a roots IH]; [reflexivity|].
  simpl plinear. rewrite length_pmul_linear, IH. reflexivity.
Qed.

Lemma peval_psum (fs : list (list Z)) (x : Z) :
  peval (psum fs) x = total (map (fun f => peval f x) fs).
Proof.
  induction fs as [|f fs IH]; [reflexivity|].
  simpl psum. rewrite peval_padd, IH. reflexivity.
Qed.

Lemma length_psum (fs : list (list Z)) (k : nat) :
  Forall (fun f => (length f <= k)%nat) fs -> (length (psum fs) <= k)%nat.
Proof.
  unfold psum. induction 1 as [|f fs Hf _ IH]; simpl.
  - apply Nat.le_0_l.
  - rewrite length_padd. apply Nat.max_lub; assumption.
Qed.

Variable P : Z.
Hypothesis prime_P : Z.prime P.

(** A polynomial with more roots, distinct modulo [P], than coefficients is
    zero modulo [P] everywhere. *)
Lemma roots_bound (roots : list Z) :
  forall f : list Z,
    NoDup (map (fun r => r mod P) roots) ->
    (length f <= length roots)%nat ->
    (forall r, In r roots -> (P | peval f r)) ->
    forall x, (P | peval f x).
Proof.
  pose proof (Z.prime_ge_2 _ prime_P) as HP.
  induction roots as [|a roots IH]; intros f Hnd Hlen Hroots x.
  - destruct f; [|simpl in Hlen; lia]. simpl. apply Z.divide_0_r.
  - simpl in Hnd. inversion Hnd as [|? ? Hnotin Hnd']; subst.
    rewrite (peval_pquot a f x).
    apply Z.divide_add_r; [apply Hroots; left; reflexivity|].
    apply Z.divide_mul_r. apply IH; [exact Hnd'| |].
    + rewrite length_pquot. simpl in Hlen. lia.
    + intros r Hr.
      assert (Hd : (P | (r - a) * peval (pquot a f) r)).
      { replace ((r - a) * peval (pquot a f) r)
          with (peval f r - peval f a) by (rewrite (peval_pquot a f r); ring).
        apply Z.divide_sub_r; apply Hroots; [right; exact Hr|left; reflexivity]. }
      apply Z.divide_prime_mul in Hd; [|exact prime_P].
      destruct Hd as [Hd|Hd]; [|exact Hd].
      exfalso. apply Hnotin. apply cong_divide in Hd.
      rewrite <- Hd. apply in_map_iff. exists r. auto.
Qed.

End Polynomials.

(** ** Lagrange interpolation *)

Section Lagrange.

Variable P : Z.
Hypothesis prime_P : Z.prime P.

Variable inv : Z -> Z.
Hypothesis inv_spec : forall d, d mod P <> 0 -> (inv d * d) mod P = 1.

Lemma length_others {A} (i : nat) (l : list A) :
  (i < length l)%nat -> length (others i l) = pred (length l).
Proof.
  intros Hi. unfold others.
  rewrite length_app, length_firstn, length_skipn. lia.
Qed.

Lemma in_others {A} (i m : nat) (l : list A) (d : A) :
  (m < length l)%nat -> m <> i -> In (nth m l d) (others i l).
Proof.
  intros Hm Hne. unfold others. apply in_or_app.
  destruct (Nat.lt_ge_cases m i) as [Hlt|Hge].
  - left. rewrite <- (firstn_skipn i l) at 1.
    rewrite app_nth1 by (rewrite length_firstn; lia).
    apply nth_In. rewrite length_firstn. lia.
  - right. rewrite <- (firstn_skipn (S i) l) at 1.
    rewrite app_nth2 by (rewrite length_firstn; lia).
    apply nth_In. rewrite length_firstn, length_skipn. lia.
Qed.

Lemma others_in {A} (i : nat) (l : list A) (a : A) :
  In a (others i l) -> In a l.
Proof.
  unfold others. intros H. apply in_app_or in H.
  rewrite <- (firstn_skipn i l). apply in_or_app.
  destruct H as [H|H]; [left; exact H|right].
  rewrite <- (firstn_skipn 1 (skipn i l)). apply in_or_app. right.
  rewrite skipn_skipn. exact H.
Qed.

Lemma product_zero (l : list Z) : In 0 l -> product l = 0.
Proof.
  induction l as [|a l IH]; intros H; [contradiction|].
  simpl. destruct H as [->|H]; [reflexivity|]. rewrite (IH H). ring.
Qed.

Lemma product_nonzero_mod (l : list Z) :
  Forall (fun a => a mod P <> 0) l -> product l mod P <> 0.
Proof.
  pose proof (Z.prime_ge_2 _ prime_P) as HP.
  induction 1 as [|a l Ha _ IH]; simpl.
  - rewrite Z.mod_small; lia.
  - intros Hz. apply Z.mod_divide in Hz; [|lia].
    apply Z.divide_prime_mul in Hz; [|exact prime_P].
    destruct Hz as [Hz|Hz]; apply Z.mod_divide in Hz; try lia; contradiction.
Qed.

Lemma total_zero (F : nat -> Z) (l : list nat) :
  (forall i, In i l -> F i = 0) -> total (map F l) = 0.
Proof.
  induction l as [|a l IH]; intros H; [reflexivity|].
  simpl. rewrite (H a) by (left; reflexivity).
  rewrite IH; [reflexivity|]. intros i Hi. apply H. right. exact Hi.
Qed.

Lemma total_single (F : nat -> Z) (m : nat) (l : list nat) :
  NoDup l -> In m l ->
  (forall i, In i l -> i <> m -> F i = 0) ->
  total (map F l) = F m.
Proof.
  induction 1 as [|a l Hnotin Hnd IH]; intros Hin Hzero; [contradiction|].
  simpl. destruct Hin as [->|Hin].
  - rewrite total_zero; [ring|].
    intros i Hi. apply Hzero; [right; exact Hi|].
    intros ->. contradiction.
  - rewrite (Hzero a); [|left; reflexivity|intros ->; contradiction].
    rewrite IH; [ring|exact Hin|]. intros i Hi. apply Hzero. right. exact Hi.
Qed.

Section Points.

Variable points : list (Z * Z).

Let xs := map fst points.
Let ys := map snd points.

Hypothesis distinct : NoDup (map (fun x => x mod P) xs).

Lemma length_xs : length xs = length points.
Proof. apply length_map. Qed.

Lemma nth_map_mod (k : nat) (l : list Z) :
  nth k (map (fun x => x mod P) l) 0 = nth k l 0 mod P.
Proof.
  pose proof (Z.prime_ge_2 _ prime_P) as HP.
  revert k. induction l as [|a l IH]; intros [|k]; simpl;
    rewrite ?Z.mod_0_l by lia; auto.
Qed.

Lemma nth_xs_distinct (i m : nat) :
  (i < length points)%nat -> (m < length points)%nat -> i <> m ->
  (nth i xs 0 - nth m xs 0) mod P <> 0.
Proof.
  intros Hi Hm Hne Hz. pose proof (Z.prime_ge_2 _ prime_P) as HP.
  apply Hne. rewrite <- length_xs in Hi, Hm.
  apply (proj1 (NoDup_nth (map (fun x => x mod P) xs) 0) distinct);
    rewrite ?length_map; try assumption.
  rewrite !nth_map_mod. apply cong_divide. apply Z.mod_divide; [lia|exact Hz].
Qed.

Lemma basis_denominator_nonzero (i : nat) :
  (i < length points)%nat -> basis_denominator xs i mod P <> 0.
Proof.
  intros Hi. unfold basis_denominator. apply product_nonzero_mod.
  apply Forall_forall. intros d Hd. apply in_map_iff in Hd.
  destruct Hd as (x_j & <- & Hj).
  pose proof (others_in _ _ _ Hj) as Hin.
  destruct (In_nth _ _ 0 Hin) as (j & Hjlen & Hjnth).
  rewrite length_xs in Hjlen. rewrite <- Hjnth.
  destruct (Nat.eq_dec i j) as [->|Hne]; [|apply nth_xs_distinct; assumption].
  exfalso. rewrite <- Hjnth in Hj. clear - Hj distinct Hjlen prime_P.
  unfold others in Hj. apply in_app_or in Hj.
  rewrite <- length_xs in Hjlen.
  pose proof (firstn_skipn j xs) as Hsplit.
  assert (Hcons : skipn j xs = nth j xs 0 :: skipn (S j) xs).
  { clear - Hjlen. revert j Hjlen. induction xs as [|a l IH]; intros j Hj.
    - simpl in Hj. lia.
    - destruct j as [|j]; [reflexivity|]. simpl. apply IH. simpl in Hj. lia. }
  rewrite Hcons in Hsplit. rewrite <- Hsplit in distinct.
  rewrite map_app in distinct. simpl in distinct.
  apply NoDup_remove_2 in distinct. apply distinct.
  apply in_or_app.
  destruct Hj as [Hj|Hj]; [left|right];
    apply in_map_iff; exists (nth j xs 0); auto.
Qed.

Lemma length_interpolant :
  (length (interpolant inv points) <= length points)%nat.
Proof.
  unfold interpolant. apply length_psum. apply Forall_forall.
  intros f Hf. apply in_map_iff in Hf. destruct Hf as (i & <- & Hi).
  apply in_seq in Hi. rewrite length_pscale, length_plinear.
  rewrite length_others by (rewrite length_map; lia). rewrite length_map. lia.
Qed.

Lemma peval_interpolant (x : Z) :
  peval (interpolant inv points) x
  = total (map (fun i => nth i ys 0 * inv (basis_denominator xs i)
                         * product (map (fun x_j => x - x_j) (others i xs)))
               (seq 0 (length points))).
Proof.
  unfold interpolant. rewrite peval_psum, map_map. f_equal.
  apply map_ext. intros i. rewrite peval_pscale, peval_plinear. reflexivity.
Qed.

(** The interpolant passes through every point. *)
Lemma interpolant_at_node (m : nat) :
  (m < length points)%nat ->
  peval (interpolant inv points) (nth m xs 0) mod P = nth m ys 0 mod P.
Proof.
  intros Hm. pose proof (Z.prime_ge_2 _ prime_P) as HP.
  rewrite peval_interpolant.
  rewrite (total_single _ m); [|apply seq_NoDup|apply in_seq; lia|].
  - fold (basis_denominator xs m).
    rewrite <- Z.mul_assoc, <- Z.mul_mod_idemp_r by lia.
    rewrite inv_spec by (apply basis_denominator_nonzero; exact Hm).
    rewrite Z.mul_1_r. reflexivity.
  - intros i Hi Hne. apply in_seq in Hi.
    rewrite (product_zero (map _ _)); [ring|].
    apply in_map_iff. exists (nth m xs 0). split; [ring|].
    apply in_others; [rewrite length_xs; exact Hm|auto].
Qed.

(** A polynomial with no more coefficients than there are points, and which
    passes through them, agrees with the interpolant everywhere. *)
Lemma interpolant_unique (f : list Z) :
  (length f <= length points)%nat ->
  (forall m, (m < length points)%nat ->
             peval f (nth m xs 0) mod P = nth m ys 0 mod P) ->
  forall x, peval f x mod P = peval (interpolant inv points) x mod P.
Proof.
  intros Hlen Hnodes x. apply cong_divide.
  pose proof (roots_bound P prime_P xs
                (padd f (pscale (-1) (interpolant inv points)))) as Hroots.
  replace (peval f x - peval (interpolant inv points) x)
    with (peval (padd f (pscale (-1) (interpolant inv points))) x)
    by (rewrite peval_padd, peval_pscale; ring).
  apply Hroots; [exact distinct| |].
  - rewrite length_padd, length_pscale, length_xs.
    pose proof length_interpolant. lia.
  - intros r Hr. destruct (In_nth _ _ 0 Hr) as (m & Hmlen & <-).
    rewrite length_xs in Hmlen.
    rewrite peval_padd, peval_pscale.
    replace (peval f (nth m xs 0) + -1 * peval (interpolant inv points) (nth m xs 0))
      with (peval f (nth m xs 0) - peval (interpolant inv points) (nth m xs 0))
      by ring.
    apply cong_divide. rewrite Hnodes, interpolant_at_node by exact Hmlen.
    reflexivity.
Qed.

End Points.

End Lagrange.

(** ** Share generation *)

Lemma foldM_app {A B} (f : B -> A -> result B) (l l' : list A) (acc : B) :
  foldM f (l ++ l') acc = bind (foldM f l acc) (foldM f l').
Proof.
  revert acc. induction l as [|a l IH]; intros acc; [reflexivity|].
  simpl. destruct (f acc a); simpl; [apply IH|reflexivity].
Qed.

Section ShamirCode.

Import Shamir.

Variable self : ShamirSecretSharing.

Let P := prime self.

Hypothesis prime_P : Z.prime (prime self).

Lemma P_ge_2 : 2 <= P.
Proof. apply Z.prime_ge_2. exact prime_P. Qed.

Lemma mod_prime (a : Z) : mod_ a (prime self) = Ok (a mod P).
Proof.
  pose proof P_ge_2 as HP. unfold mod_. fold P.
  destruct (Z.eqb_spec P 0); [lia|reflexivity].
Qed.

(** [_evaluate_polynomial] is Horner's rule modulo the prime. *)
Lemma _evaluate_polynomial_eq (coefficients : list Z) (x : Z) :
  _evaluate_polynomial self coefficients x
  = Ok (peval coefficients x mod P).
Proof.
  pose proof P_ge_2 as HP. unfold _evaluate_polynomial.
  induction coefficients as [|c cs IH].
  - simpl. rewrite Z.mod_0_l by lia. reflexivity.
  - simpl rev. rewrite foldM_app, IH. cbn [bind foldM]. unfold mod_.
    fold P. destruct (Z.eqb_spec P 0); [lia|]. f_equal.
    change (peval (c :: cs) x) with (c + x * peval cs x).
    rewrite Z.add_comm, (Z.mul_comm x).
    rewrite <- Z.add_mod_idemp_r, Z.mul_mod_idemp_l, Z.add_mod_idemp_r by lia.
    reflexivity.
Qed.

Lemma draw_coefficients_eq (steps : list Z) :
  forall (coefficients tape : list Z),
    (length steps <= length tape)%nat ->
    draw_coefficients self steps coefficients tape
    = Ok (coefficients ++ firstn (length steps) tape,
          skipn (length steps) tape).
Proof.
  pose proof P_ge_2 as HP.
  induction steps as [|s steps IH]; intros coefficients tape Hlen.
  - simpl. unfold ret. rewrite app_nil_r. reflexivity.
  - destruct tape as [|r tape]; [simpl in Hlen; lia|].
    cbn [draw_coefficients]. unfold bindR, randint. fold P.
    destruct (Z.ltb_spec (P - 1) 1); [lia|].
    rewrite IH by (simpl in Hlen; lia).
    simpl. rewrite <- app_assoc. reflexivity.
Qed.

Lemma share_loop_eq (coefficients : list Z) (ids : list Z) :
  forall shares,
    foldM (fun shares i =>
             share_value <- _evaluate_polynomial self coefficients i ;;
             Ok (shares ++ [(i, share_value)])) ids shares
    = Ok (shares ++ map (fun i => (i, peval coefficients i mod P)) ids).
Proof.
  induction ids as [|i ids IH]; intros shares.
  - simpl. rewrite app_nil_r. reflexivity.
  - cbn [foldM]. rewrite _evaluate_polynomial_eq. cbn [bind].
    rewrite IH, <- app_assoc. reflexivity.
Qed.

Lemma length_range (lo hi : Z) : length (range lo hi) = Z.to_nat (hi - lo).
Proof. unfold range. rewrite length_map, length_seq. reflexivity. Qed.

(** [generate_shares] evaluates that polynomial at [1 .. total_shares]. *)
Lemma generate_shares_eq (secret : Z) (tape : list Z) :
  secret < P ->
  (Z.to_nat (threshold self - 1) <= length tape)%nat ->
  generate_shares self secret tape
  = Ok (map (fun i => (i, peval (share_polynomial self secret tape) i mod P))
            (range 1 (total_shares self + 1)),
        skipn (length (range 1 (threshold self))) tape).
Proof.
  intros Hs Hlen. unfold generate_shares. fold P.
  destruct (Z.geb_spec secret P); [lia|].
  unfold bindR. rewrite draw_coefficients_eq by (rewrite length_range; lia).
  unfold lift. rewrite share_loop_eq. reflexivity.
Qed.

(** The recursion of [extended_gcd] returns the gcd with its Bezout
    coefficients. *)
Lemma extended_gcd_spec (fuel : nat) :
  forall a b,
    0 <= a -> 0 <= b -> (Z.to_nat a < fuel)%nat ->
    exists x y,
      extended_gcd fuel a b = Some (Z.gcd a b, x, y) /\
      a * x + b * y = Z.gcd a b.
Proof.
  induction fuel as [|fuel IH]; intros a b Ha Hb Hf; [lia|].
  simpl. destruct (Z.eqb_spec a 0) as [->|Hne].
  - exists 0, 1. rewrite Z.gcd_0_l, Z.abs_eq by lia. split; [reflexivity|lia].
  - pose proof (Z.mod_pos_bound b a ltac:(lia)) as Hmod.
    destruct (IH (b mod a) a ltac:(lia) ltac:(lia) ltac:(lia))
      as (x1 & y1 & -> & Hbez).
    rewrite Z.gcd_mod in * by lia.
    eexists _, _. split; [reflexivity|].
    rewrite <- Hbez. rewrite (Z.mod_eq b a) by lia. ring.
Qed.

(** The recursion never runs out of the fuel [_mod_inverse] gives it: the
    first argument shrinks in absolute value. *)
Lemma extended_gcd_terminates (fuel : nat) :
  forall a b, (Z.abs_nat a < fuel)%nat -> extended_gcd fuel a b <> None.
Proof.
  induction fuel as [|fuel IH]; intros a b Hf; [lia|].
  simpl. destruct (Z.eqb_spec a 0) as [->|Hne]; [discriminate|].
  assert (Hlt : (Z.abs_nat (b mod a) < fuel)%nat).
  { destruct (Z.lt_ge_cases a 0).
    - pose proof (Z.mod_neg_bound b a ltac:(lia)). lia.
    - pose proof (Z.mod_pos_bound b a ltac:(lia)). lia. }
  specialize (IH (b mod a) a Hlt).
  destruct (extended_gcd fuel (b mod a) a) as [[[gcd x1] y1]|];
    [discriminate|contradiction].
Qed.

Lemma _mod_inverse_finishes (a : Z) : _mod_inverse self a <> Raise Unfinished.
Proof.
  unfold _mod_inverse.
  pose proof (extended_gcd_terminates (S (Z.abs_nat a)) a (prime self)
                ltac:(lia)) as Ht.
  destruct (extended_gcd _ a (prime self)) as [[[gcd x] y]|];
    [|contradiction].
  destruct (negb (gcd =? 1)); [discriminate|].
  unfold mod_, bind. destruct (prime self =? 0); discriminate.
Qed.

(** [_mod_inverse] inverts the non-zero residues. *)
Lemma _mod_inverse_eq (a : Z) :
  0 < a < P ->
  _mod_inverse self a = Ok (mod_inverse_value P a) /\
  (mod_inverse_value P a * a) mod P = 1.
Proof.
  intros Ha. pose proof P_ge_2 as HP.
  unfold _mod_inverse, mod_inverse_value. fold P.
  destruct (extended_gcd_spec (S (Z.abs_nat a)) a P) as (x & y & -> & Hbez);
    try lia.
  assert (Hg : Z.gcd a P = 1).
  { rewrite Z.gcd_comm. apply Z.coprime_prime_small; [exact prime_P|lia]. }
  rewrite Hg in *. simpl negb. cbv iota.
  unfold mod_, bind. destruct (Z.eqb_spec P 0); [lia|].
  split; [reflexivity|].
  assert (E : (x mod P + P) mod P = x mod P).
  { rewrite <- Z.add_mod_idemp_r, Z.mod_same, Z.add_0_r, Z.mod_mod by lia.
    reflexivity. }
  rewrite E, Z.mul_mod_idemp_l by lia.
  transitivity (1 mod P); [|apply Z.mod_small; lia].
  apply cong_divide. exists (- y). lia.
Qed.

Lemma others_map {A B} (f : A -> B) (i : nat) (l : list A) :
  map f (others i l) = others i (map f l).
Proof.
  unfold others. rewrite map_app, firstn_map, skipn_map. reflexivity.
Qed.

(** Skipping index [i] of an enumeration leaves the other elements. *)
Lemma filter_enumerate {A} (i : nat) (l : list A) :
  forall s,
    map snd (filter (fun e => negb (Nat.eqb i (fst e)))
                    (combine (seq s (length l)) l))
    = if (i <? s)%nat then l else others (i - s) l.
Proof.
  induction l as [|a l IH]; intros s.
  - simpl. unfold others. rewrite firstn_nil, skipn_nil.
    destruct (i <? s)%nat; reflexivity.
  - cbn [length seq combine filter fst].
    destruct (Nat.eqb_spec i s) as [->|Hne]; cbn [negb map snd].
    + rewrite IH. rewrite (proj2 (Nat.ltb_lt s (S s))) by lia.
      rewrite (proj2 (Nat.ltb_ge s s)) by lia.
      rewrite Nat.sub_diag. reflexivity.
    + rewrite IH. destruct (Nat.ltb_spec i s).
      * rewrite (proj2 (Nat.ltb_lt i (S s))) by lia. reflexivity.
      * rewrite (proj2 (Nat.ltb_ge i (S s))) by lia.
        replace (i - s)%nat with (S (i - S s)) by lia. reflexivity.
Qed.

Lemma numerator_denominator_fold (i : nat) (x_i : Z)
  (el : list (nat * share)) :
  forall nu de,
    nu mod P = nu -> de mod P = de ->
    let sel :=
      map fst (map snd (filter (fun e => negb (Nat.eqb i (fst e))) el)) in
    foldM (fun '(numerator, denominator) '(j, (x_j, _)) =>
             if negb (Nat.eqb i j) then
               numerator <- mod_ (numerator * (- x_j)) (prime self) ;;
               denominator <- mod_ (denominator * (x_i - x_j)) (prime self) ;;
               Ok (numerator, denominator)
             else Ok (numerator, denominator))
          el (nu, de)
    = Ok ((nu * product (map Z.opp sel)) mod P,
          (de * product (map (fun x_j => x_i - x_j) sel)) mod P).
Proof.
  pose proof P_ge_2 as HP.
  induction el as [|[j [x_j y_j]] el IH]; intros nu de Hnu Hde sel.
  - simpl. rewrite !Z.mul_1_r, Hnu, Hde. reflexivity.
  - subst sel. cbn [foldM filter fst].
    destruct (negb (Nat.eqb i j)).
    + unfold mod_ at 1 2. fold P.
      destruct (Z.eqb_spec P 0); [lia|]. cbn [bind].
      rewrite IH by (apply Z.mod_mod; lia).
      cbn [map snd fst]. cbn [product fold_right].
      rewrite !Z.mul_mod_idemp_l, !Z.mul_assoc by lia. reflexivity.
    + cbn [bind]. apply IH; assumption.
Qed.

Lemma numerator_denominator_eq (i : nat) (x_i : Z) (shares : list share) :
  numerator_denominator self i x_i shares
  = Ok (product (map Z.opp (others i (map fst shares))) mod P,
        product (map (fun x_j => x_i - x_j) (others i (map fst shares))) mod P).
Proof.
  pose proof P_ge_2 as HP. unfold numerator_denominator.
  rewrite numerator_denominator_fold by (apply Z.mod_small; lia).
  unfold enumerate. rewrite filter_enumerate.
  rewrite (proj2 (Nat.ltb_ge i 0)) by lia.
  rewrite Nat.sub_0_r, others_map, !Z.mul_1_l. reflexivity.
Qed.

Lemma denominator_inverse_spec (d : Z) :
  d mod P <> 0 -> (denominator_inverse self d * d) mod P = 1.
Proof.
  intros Hd. pose proof P_ge_2 as HP. unfold denominator_inverse.
  pose proof (Z.mod_pos_bound d P ltac:(lia)) as Hb.
  rewrite <- Z.mul_mod_idemp_r by lia.
  apply _mod_inverse_eq. lia.
Qed.

Section Reconstruction.

Variable shares : list share.

Hypothesis distinct : NoDup (map (fun x => x mod P) (map fst shares)).

Lemma reconstruct_fold (el : list (nat * share)) :
  Forall (fun e => (fst e < length shares)%nat /\
                   snd e = nth (fst e) shares (0, 0)) el ->
  forall acc,
    acc mod P = acc ->
    foldM (fun secret '(i, (x_i, y_i)) =>
             nd <- numerator_denominator self i x_i shares ;;
             let '(numerator, denominator) := nd in
             inv <- _mod_inverse self denominator ;;
             lagrange_coeff <- mod_ (numerator * inv) (prime self) ;;
             mod_ (secret + y_i * lagrange_coeff) (prime self))
          el acc
    = Ok ((acc + total (map (lagrange_term self shares) (map fst el))) mod P).
Proof.
  pose proof P_ge_2 as HP.
  induction 1 as [|[i [x_i y_i]] el [Hi Hnth] _ IH]; intros acc Hacc.
  - simpl. rewrite Z.add_0_r, Hacc. reflexivity.
  - cbn [foldM]. simpl in Hi, Hnth.
    rewrite numerator_denominator_eq. cbn [bind].
    assert (Hx : x_i = nth i (map fst shares) 0)
      by (change 0 with (fst (0, 0)); rewrite map_nth, <- Hnth; reflexivity).
    assert (Hy : y_i = nth i (map snd shares) 0)
      by (change 0 with (snd (0, 0)); rewrite map_nth, <- Hnth; reflexivity).
    pose proof (basis_denominator_nonzero P prime_P shares distinct i Hi)
      as Hden.
    unfold basis_denominator in Hden. rewrite <- Hx in Hden.
    pose proof (Z.mod_pos_bound
                  (product (map (fun x_j => x_i - x_j)
                                (others i (map fst shares)))) P ltac:(lia))
      as Hb.
    destruct (_mod_inverse_eq _ ltac:(split; [|apply Hb]; lia)) as [-> _].
    cbn [bind]. rewrite mod_prime. cbn [bind]. rewrite mod_prime. cbn [bind].
    rewrite IH by (apply Z.mod_mod; lia).
    f_equal. cbn [map fst total fold_right].
    rewrite Z.add_mod_idemp_l by lia. f_equal.
    unfold lagrange_term, denominator_inverse, basis_denominator. fold P.
    rewrite <- Hx, <- Hy. unfold total. ring.
Qed.

Lemma enumerate_nth {A} (l : list A) (d : A) :
  forall s,
    Forall (fun e => (s <= fst e < s + length l)%nat /\
                     snd e = nth (fst e - s) l d)
           (combine (seq s (length l)) l).
Proof.
  induction l as [|a l IH]; intros s; [constructor|].
  cbn [length seq combine]. constructor.
  - simpl. split; [lia|]. rewrite Nat.sub_diag. reflexivity.
  - eapply Forall_impl; [|apply (IH (S s))].
    intros [j b] [Hj Hb]. simpl in *. split; [lia|].
    replace (j - s)%nat with (S (j - S s)) by lia. exact Hb.
Qed.

Lemma map_fst_enumerate {A} (l : list A) :
  map fst (enumerate l) = seq 0 (length l).
Proof.
  unfold enumerate. generalize 0%nat.
  induction l as [|a l IH]; intros s; [reflexivity|].
  cbn [length seq combine map fst]. rewrite IH. reflexivity.
Qed.

Lemma total_cong (F G : nat -> Z) (l : list nat) :
  (forall i, In i l -> F i mod P = G i mod P) ->
  total (map F l) mod P = total (map G l) mod P.
Proof.
  pose proof P_ge_2 as HP.
  induction l as [|a l IH]; intros H; [reflexivity|].
  cbn [map]. rewrite !total_cons.
  rewrite Z.add_mod by lia.
  rewrite (H a) by (left; reflexivity).
  rewrite IH by (intros i Hi; apply H; right; exact Hi).
  rewrite <- Z.add_mod by lia. reflexivity.
Qed.

(** On exactly [threshold] shares with distinct residues,
    [reconstruct_secret] returns the value at 0 of their interpolant. *)
Lemma reconstruct_secret_eq :
  len shares = threshold self ->
  reconstruct_secret self shares
  = Ok (peval (interpolant (denominator_inverse self) shares) 0 mod P).
Proof.
  intros Hlen. pose proof P_ge_2 as HP. unfold reconstruct_secret.
  destruct (Z.ltb_spec (len shares) (threshold self)); [lia|].
  assert (Hslice : slice_to shares (threshold self) = shares).
  { unfold slice_to. rewrite <- Hlen. unfold len.
    destruct (Z.ltb_spec (Z.of_nat (length shares)) 0); [lia|].
    rewrite Nat2Z.id. apply firstn_all. }
  rewrite Hslice.
  rewrite reconstruct_fold; [| |apply Z.mod_0_l; lia].
  - rewrite Z.add_0_l, map_fst_enumerate. f_equal.
    rewrite peval_interpolant. apply total_cong.
    intros i Hi. unfold lagrange_term.
    rewrite Z.mul_mod_idemp_r by lia.
    rewrite (Z.mul_comm (nth i (map snd shares) 0)), <- Z.mul_assoc.
    rewrite Z.mul_mod_idemp_l by lia.
    f_equal.
    replace (map (fun x_j => 0 - x_j) (others i (map fst shares)))
      with (map Z.opp (others i (map fst shares)))
      by (apply map_ext; intros; ring).
    ring.
  - unfold enumerate. eapply Forall_impl; [|apply (enumerate_nth shares (0, 0) 0%nat)].
    intros [j b] [Hj Hb]. simpl in *. rewrite Nat.sub_0_r in Hb. split; [lia|exact Hb].
Qed.

End Reconstruction.

End ShamirCode.

(** ** Reconstruction from generated shares *)

Section ShamirCorrectness.

Import Shamir.

Lemma peval_at_zero (c : Z) (f : list Z) : peval (c :: f) 0 = c.
Proof. unfold peval. simpl. ring. Qed.

Lemma slice_to_nonneg {A} (l : list A) (k : Z) :
  0 <= k -> slice_to l k = firstn (Z.to_nat k) l.
Proof.
  intros Hk. unfold slice_to. destruct (Z.ltb_spec k 0); [lia|reflexivity].
Qed.

(** Only the first [threshold] shares supplied are used. *)
Lemma reconstruct_secret_prefix (self : ShamirSecretSharing)
  (supplied : list share) :
  0 <= threshold self ->
  threshold self <= len supplied ->
  reconstruct_secret self supplied
  = reconstruct_secret self (slice_to supplied (threshold self)).
Proof.
  intros Hk Hlen. unfold reconstruct_secret.
  assert (Hl : len (slice_to supplied (threshold self)) = threshold self).
  { rewrite slice_to_nonneg by exact Hk. unfold len in *.
    rewrite length_firstn. lia. }
  rewrite Hl.
  destruct (Z.ltb_spec (len supplied) (threshold self)); [lia|].
  destruct (Z.ltb_spec (threshold self) (threshold self)); [lia|].
  rewrite !slice_to_nonneg by exact Hk.
  rewrite firstn_firstn, Nat.min_id. reflexivity.
Qed.

(** Any [threshold] distinct generated shares, in any order, reconstruct
    the secret reduced modulo the prime. *)
Lemma reconstruct_generated_shares (self : ShamirSecretSharing) (secret : Z)
  (tape : list Z) :
  Z.prime (prime self) ->
  1 <= threshold self <= total_shares self ->
  total_shares self < prime self ->
  secret < prime self ->
  (Z.to_nat (threshold self - 1) <= length tape)%nat ->
  exists shares tape',
    generate_shares self secret tape = Ok (shares, tape') /\
    (forall subset : list share,
        NoDup subset -> incl subset shares ->
        len subset = threshold self ->
        reconstruct_secret self subset = Ok (secret mod prime self)).
Proof.
  intros Hprime Hk Htotal Hsecret Htape.
  pose proof (Z.prime_ge_2 _ Hprime) as HP.
  rewrite (generate_shares_eq self Hprime secret tape Hsecret Htape).
  eexists _, _. split; [reflexivity|].
  set (f := share_polynomial self secret tape).
  intros subset Hnd Hincl Hlen.
  assert (Hshape : forall p, In p subset ->
            1 <= fst p <= total_shares self /\
            snd p = peval f (fst p) mod prime self).
  { intros p Hp. apply Hincl in Hp. apply in_map_iff in Hp.
    destruct Hp as (i & <- & Hi). apply in_range in Hi. simpl.
    split; [lia|reflexivity]. }
  assert (Hdist : NoDup (map (fun x => x mod prime self) (map fst subset))).
  { rewrite map_map. apply Finite.Injective_map_NoDup_in; [|exact Hnd].
    intros [x y] [x' y'] Hp Hp' Heq.
    destruct (Hshape _ Hp) as [Hx Hy]. destruct (Hshape _ Hp') as [Hx' Hy'].
    simpl in *. rewrite !Z.mod_small in Heq by lia. subst. reflexivity. }
  rewrite (reconstruct_secret_eq self Hprime subset Hdist Hlen).
  f_equal.
  rewrite <- (interpolant_unique (prime self) Hprime
                (denominator_inverse self)
                (denominator_inverse_spec self Hprime)
                subset Hdist f).
  - unfold f, share_polynomial. rewrite peval_at_zero. reflexivity.
  - unfold f, share_polynomial. cbn [length].
    rewrite length_firstn, length_range. unfold len in Hlen.
    clear - Hlen Hk. lia.
  - intros m Hm.
    pose proof (nth_In subset (0, 0) Hm) as Hin.
    destruct (Hshape _ Hin) as [_ Hy].
    rewrite (map_nth fst subset (0, 0) m : nth m (map fst subset) 0 = _).
    rewrite (map_nth snd subset (0, 0) m : nth m (map snd subset) 0 = _).
    rewrite Hy, Z.mod_mod by lia. reflexivity.
Qed.

(** C3, as the code has it.  For a prime modulus larger than
    [total_shares], a secret of [0 .. prime-1] and [1 <= threshold <=
    total_shares], [generate_shares] returns whatever the random
    coefficients are, and [reconstruct_secret] applied to any [threshold]
    distinct shares of its result, in any order, returns the secret; a longer
    list gives the result of its first [threshold] shares. *)
Theorem shamir_reconstruction (self : ShamirSecretSharing) (secret : Z)
  (tape : list Z) :
  Z.prime (prime self) ->
  1 <= threshold self <= total_shares self ->
  total_shares self < prime self ->
  0 <= secret < prime self ->
  (Z.to_nat (threshold self - 1) <= length tape)%nat ->
  exists shares tape',
    generate_shares self secret tape = Ok (shares, tape') /\
    (forall subset : list share,
        NoDup subset -> incl subset shares ->
        len subset = threshold self ->
        reconstruct_secret self subset = Ok secret) /\
    (forall supplied : list share,
        threshold self <= len supplied ->
        reconstruct_secret self supplied
        = reconstruct_secret self (slice_to supplied (threshold self))).
Proof.
  intros Hprime Hk Htotal Hsecret Htape.
  destruct (reconstruct_generated_shares self secret tape Hprime Hk Htotal
              (proj2 Hsecret) Htape) as (shares & tape' & Hgen & Hsubset).
  exists shares, tape'. split; [exact Hgen|]. split.
  - intros subset Hnd Hincl Hlen.
    rewrite (Hsubset subset Hnd Hincl Hlen), Z.mod_small by lia.
    reflexivity.
  - intros supplied Hlen. apply reconstruct_secret_prefix; lia.
Qed.

End ShamirCorrectness.

(** ** Concrete sharings *)

Section ShamirExamples.

Import Shamir.

Lemma shamir_reconstruction_witness :
  reconstruct_secret sharing_5_3_7 [(5, 5); (1, 3); (3, 5)] = Ok 3.
Proof.
  destruct (shamir_reconstruction sharing_5_3_7 3 [2; 5])
    as (shares & tape' & Hgen & Hsubset & _).
  - apply trial_division_sound. reflexivity.
  - simpl. lia.
  - simpl. lia.
  - simpl. lia.
  - simpl. lia.
  - vm_compute in Hgen. injection Hgen as <- <-.
    apply (Hsubset [(5, 5); (1, 3); (3, 5)]).
    + repeat constructor; simpl; intuition discriminate.
    + intros p Hp. simpl in Hp. simpl. intuition.
    + reflexivity.
Defined.

(** C3 as stated fails for a negative secret, which passes the test
    [secret >= prime] and comes back reduced, and for a prime that is not
    larger than [total_shares], where two shares have the same abscissa
    modulo the prime and no inverse exists. *)
Lemma shamir_reconstruction_counterexample :
  (-1 < prime sharing_1_1_5 /\
   1 <= threshold sharing_1_1_5 <= total_shares sharing_1_1_5 /\
   generate_shares sharing_1_1_5 (-1) [] = Ok ([(1, 4)], []) /\
   reconstruct_secret sharing_1_1_5 [(1, 4)] = Ok 4 /\
   reconstruct_secret sharing_1_1_5 [(1, 4)] <> Ok (-1)) /\
  (3 < prime sharing_7_2_5 /\
   1 <= threshold sharing_7_2_5 <= total_shares sharing_7_2_5 /\
   generate_shares sharing_7_2_5 3 [1]
   = Ok ([(1, 4); (2, 0); (3, 1); (4, 2); (5, 3); (6, 4); (7, 0)], []) /\
   reconstruct_secret sharing_7_2_5 [(1, 4); (6, 4)] = Raise ValueError /\
   reconstruct_secret sharing_7_2_5 [(1, 4); (6, 4)] <> Ok 3).
Proof.
  repeat split; try (simpl; lia); try discriminate.
Qed.

(** What [verify_share] compares: the candidate's value with the
    reconstructed secret, whatever the candidate's abscissa. *)
Lemma verify_share_eq (self : ShamirSecretSharing) (candidate : Z * Z)
  (other_shares : list (Z * Z)) :
  prime self <> 0 ->
  verify_share self candidate other_shares
  = if len other_shares <? threshold self - 1 then true
    else match reconstruct_secret self other_shares with
         | Ok reconstructed => reconstructed mod prime self =? snd candidate
         | Raise _ => false
         end.
Proof.
  intros HP. unfold verify_share.
  destruct (len other_shares <? threshold self - 1); [reflexivity|].
  destruct (reconstruct_secret self other_shares) as [s|e]; [|reflexivity].
  cbn [bind]. unfold _evaluate_polynomial. simpl. unfold mod_.
  destruct (Z.eqb_spec (prime self) 0); [contradiction|]. reflexivity.
Qed.

(** C6.  [verify_share] rejects a share that lies on the polynomial of the
    others: of the shares [(1,4); (2,5); (3,6)] of the secret 3 under
    threshold 2 and prime 7, the third is rejected against the first two,
    because its value is compared with the reconstructed secret; and it is
    rejected against the first alone, which is [threshold - 1] shares,
    because the reconstruction raises. *)
Theorem verify_share_rejects_consistent_share :
  generate_shares sharing_3_2_7 3 [1] = Ok ([(1, 4); (2, 5); (3, 6)], []) /\
  on_interpolant sharing_3_2_7 (3, 6) [(1, 4); (2, 5)] = true /\
  reconstruct_secret sharing_3_2_7 [(1, 4); (2, 5)] = Ok 3 /\
  verify_share sharing_3_2_7 (3, 6) [(1, 4); (2, 5)] = false /\
  len [(1, 4)] = threshold sharing_3_2_7 - 1 /\
  verify_share sharing_3_2_7 (3, 6) [(1, 4)] = false.
Proof. repeat split. Qed.

(** C4.  One share of a 2-out-of-2 sharing modulo 5 is not distributed alike
    for the secrets 0 and 1: the coefficient is never 0, so the first share
    never equals the secret plus 0.  It takes the value 1 for one tape in
    four when the secret is 0 and for none when the secret is 1, so the two
    distributions are not permutations of each other. *)
Theorem single_share_depends_on_secret :
  views sharing_2_2_5 0 [1]
  = [Ok [(1, 1)]; Ok [(1, 2)]; Ok [(1, 3)]; Ok [(1, 4)]] /\
  views sharing_2_2_5 1 [1]
  = [Ok [(1, 2)]; Ok [(1, 3)]; Ok [(1, 4)]; Ok [(1, 0)]] /\
  ~ Permutation (views sharing_2_2_5 0 [1]) (views sharing_2_2_5 1 [1]).
Proof.
  split; [reflexivity|]. split; [reflexivity|].
  intros Hperm.
  assert (Hin : In (Ok [(1, 1)]) (views sharing_2_2_5 1 [1])).
  { eapply Permutation_in; [exact Hperm|]. left. reflexivity. }
  vm_compute in Hin. intuition discriminate.
Qed.

End ShamirExamples.

(** * Further properties of the code *)

(** ** Partial decryption and combination in paillier.py *)

Section PartialDecryption.

Import Paillier.

(** X2.  One trustee holding the whole exponent: combining the single
    partial decryption made with [lambda_val] is [decrypt], errors
    included, for every ciphertext and every key pair. *)
Theorem combine_single_partial_is_decrypt (c : Z) (kp : PaillierKeyPair) :
  (partial <- partial_decrypt c (lambda_val kp) kp ;;
   combine_partial_decryptions [partial] kp)
  = decrypt c kp.
Proof.
  unfold partial_decrypt, combine_partial_decryptions, decrypt.
  assert (Hpow : forall x, pow c (lambda_val kp) (n kp * n kp) = Ok x ->
                           (1 * x) mod (n kp * n kp) = x /\ n kp * n kp <> 0).
  { intros x Hx. unfold Py.pow in Hx.
    destruct (Z.eqb_spec (n kp * n kp) 0) as [|Hne]; [discriminate|].
    split; [|exact Hne]. rewrite Z.mul_1_l.
    destruct (lambda_val kp <? 0).
    - destruct (Z.gcd c (n kp * n kp) =? 1); [|discriminate].
      injection Hx as <-. apply Z.mod_mod. exact Hne.
    - injection Hx as <-. apply Z.mod_mod. exact Hne. }
  destruct (pow c (lambda_val kp) (n kp * n kp)) as [x|e]; [|reflexivity].
  destruct (Hpow x eq_refl) as [Hx Hne].
  cbn [bind foldM]. unfold mod_ at 1.
  destruct (Z.eqb_spec (n kp * n kp) 0); [contradiction|].
  cbn [bind]. rewrite Hx. reflexivity.
Qed.

Lemma partial_decryptions_eq (c : Z) (kp : PaillierKeyPair)
  (shares : list Z) :
  n kp <> 0 -> Forall (fun s => 0 <= s) shares ->
  mapM (fun s => partial_decrypt c s kp) shares
  = Ok (map (fun s => c ^ s mod (n kp * n kp)) shares).
Proof.
  intros Hn. assert (Hnn : n kp * n kp <> 0) by nia.
  induction 1 as [|s shares Hs _ IH]; [reflexivity|].
  cbn [mapM map]. rewrite IH. unfold partial_decrypt, Py.pow.
  destruct (Z.eqb_spec (n kp * n kp) 0); [contradiction|].
  destruct (Z.ltb_spec s 0); [lia|]. reflexivity.
Qed.

Lemma combined_powers (c m : Z) (shares : list Z) :
  m <> 0 -> Forall (fun s => 0 <= s) shares ->
  forall e, 0 <= e ->
    fold_left (fun acc partial => (acc * partial) mod (m * m))
              (map (fun s => c ^ s mod (m * m)) shares) (c ^ e mod (m * m))
    = c ^ (e + total shares) mod (m * m).
Proof.
  intros Hm. assert (Hmm : m * m <> 0) by nia.
  induction 1 as [|s shares Hs Hall IH]; intros e He.
  - simpl. rewrite Z.add_0_r. reflexivity.
  - cbn [map fold_left]. rewrite <- Z.mul_mod, <- Z.pow_add_r by lia.
    rewrite IH by lia. rewrite total_cons, Z.add_assoc. reflexivity.
Qed.

(** X3.  Combination adds the exponents: for non-negative shares, combining
    the partial decryptions of one ciphertext is decrypting it with the sum
    of the shares as exponent.  So the combined result is the plaintext only
    if that sum works as [lambda] does. *)
Theorem combine_adds_exponents (c : Z) (kp : PaillierKeyPair)
  (shares : list Z) :
  2 <= n kp ->
  Forall (fun s => 0 <= s) shares ->
  (partials <- mapM (fun s => partial_decrypt c s kp) shares ;;
   combine_partial_decryptions partials kp)
  = decrypt c (with_exponent kp (total shares)).
Proof.
  intros Hn Hall.
  assert (Htot : 0 <= total shares).
  { clear - Hall. induction Hall; [simpl; lia|rewrite total_cons; lia]. }
  rewrite partial_decryptions_eq by (assumption || lia). cbn [bind].
  unfold combine_partial_decryptions.
  rewrite combined_fold by lia. cbn [bind].
  rewrite decrypt_eq by (simpl; lia). cbn [with_exponent n lambda_val mu].
  unfold floordiv, mod_. destruct (Z.eqb_spec (n kp) 0); [lia|]. cbn [bind].
  replace 1 with (c ^ 0 mod (n kp * n kp)) at 1
    by (rewrite Z.pow_0_r; apply Z.mod_small; nia).
  rewrite combined_powers by (assumption || lia). rewrite Z.add_0_l.
  reflexivity.
Qed.

Lemma combine_adds_exponents_witness :
  (partials <- mapM (fun s => partial_decrypt 38 s key_pair_15) [1; 3] ;;
   combine_partial_decryptions partials key_pair_15)
  = decrypt 38 (with_exponent key_pair_15 (total [1; 3])).
Proof.
  apply combine_adds_exponents.
  - simpl. lia.
  - repeat constructor; lia.
Defined.

End PartialDecryption.

(** ** Scalar multiplication and validity of ciphertexts *)

Section ScalarMultiplication.

Import Paillier.

Lemma coprime_square (x m : Z) : Z.gcd x m = 1 -> Z.gcd x (m * m) = 1.
Proof. intros H. apply Z.coprime_mul_r; exact H. Qed.

Lemma coprime_of_square (x m : Z) : Z.gcd x (m * m) = 1 -> Z.gcd x m = 1.
Proof.
  intros H. pose proof (Z.gcd_nonneg x m) as Hn.
  assert (Hd : (Z.gcd x m | Z.gcd x (m * m))).
  { apply Z.gcd_greatest; [apply Z.gcd_divide_l|].
    apply Z.divide_mul_l. apply Z.gcd_divide_r. }
  rewrite H in Hd. apply Z.divide_1_r in Hd. lia.
Qed.

Lemma pow_cong (a b m e : Z) :
  0 <= e -> a mod m = b mod m -> a ^ e mod m = b ^ e mod m.
Proof.
  intros He H. rewrite <- (Z.mod_pow_l a), H, Z.mod_pow_l. reflexivity.
Qed.

(** The inverse modulo [n * n] of a ciphertext is a ciphertext of the
    opposite plaintext, written with a non-negative exponent. *)
Lemma inverse_ciphertext (m msg r c : Z) :
  2 <= m -> 0 <= msg ->
  Z.gcd r m = 1 ->
  c mod (m * m) = ((1 + m) ^ msg * r ^ m) mod (m * m) ->
  Z.gcd c (m * m) = 1 /\
  Z.invmod c (m * m) mod (m * m)
  = ((1 + m) ^ (msg * (m - 1)) * Z.invmod r (m * m) ^ m) mod (m * m).
Proof.
  intros Hm Hmsg Hr Hc.
  assert (Hmm : 2 <= m * m) by nia.
  set (N := m * m) in *.
  set (s := Z.invmod r N).
  assert (Hs : (s * r) mod N = 1).
  { apply Z.invmod_coprime; [lia|]. apply coprime_square. exact Hr. }
  assert (Hcop : Z.gcd c N = 1).
  { apply Z.coprime_mod_l_iff. rewrite Hc. apply Z.coprime_mod_l_iff.
    apply Z.coprime_mul_l; apply Z.coprime_pow_l; try lia.
    - apply coprime_square. apply Z.coprime_Bezout. exists 1, (-1). ring.
    - apply coprime_square. exact Hr. }
  split; [exact Hcop|].
  set (i := Z.invmod c N).
  assert (Hi : (i * c) mod N = 1) by (apply Z.invmod_coprime; [lia|exact Hcop]).
  set (t := (1 + m) ^ (msg * (m - 1)) * s ^ m).
  assert (Ht : (t * c) mod N = 1).
  { rewrite <- Z.mul_mod_idemp_r, Hc, Z.mul_mod_idemp_r by lia.
    unfold t.
    replace ((1 + m) ^ (msg * (m - 1)) * s ^ m * ((1 + m) ^ msg * r ^ m))
      with ((1 + m) ^ (msg * m) * (s * r) ^ m).
    2:{ rewrite Z.pow_mul_l.
        replace (msg * m) with (msg * (m - 1) + msg) by ring.
        rewrite Z.pow_add_r by nia. ring. }
    rewrite <- Z.mul_mod_idemp_r by lia.
    rewrite (pow_cong (s * r) 1 N m) by (lia || (rewrite Hs; symmetry; apply Z.mod_small; lia)).
    rewrite Z.pow_1_l, Z.mul_mod_idemp_r, Z.mul_1_r by lia.
    pose proof (pow_one_plus_multiple_mod m 1 (msg * m) ltac:(nia)) as Hp.
    rewrite Z.mul_1_l in Hp. fold N in Hp. rewrite Hp.
    replace (1 + msg * m * 1 * m) with (1 + msg * N) by (unfold N; ring).
    rewrite Z.mod_add by lia. apply Z.mod_small. lia. }
  transitivity ((i * (t * c)) mod N).
  - rewrite <- Z.mul_mod_idemp_r, Ht, Z.mul_1_r by lia. reflexivity.
  - replace (i * (t * c)) with ((i * c) * t) by ring.
    rewrite <- Z.mul_mod_idemp_l, Hi, Z.mul_1_l by lia. reflexivity.
Qed.

(** X1.  Scalar multiplication: for every integer scalar, negative ones
    included, [multiply_ciphertext] of a fresh ciphertext of [message]
    decrypts to [message * scalar mod n]. *)
Theorem paillier_scalar_multiplication (key_size : Z)
  (ptape ptape' : list Z) (kp : PaillierKeyPair) (message scalar : Z)
  (rtape : list Z) :
  Forall Z.prime ptape ->
  generate_key_pair key_size ptape = Ok (kp, ptape') ->
  0 <= message < n kp ->
  Exists (coprime_to (n kp)) rtape ->
  exists c rtape' c',
    encrypt message (public_key kp) rtape = Ok (c, rtape') /\
    multiply_ciphertext c scalar (public_key kp) = Ok c' /\
    decrypt c' kp = Ok ((message * scalar) mod n kp).
Proof.
  intros Hprimes Hgen Hm Hex.
  pose proof (generate_key_pair_valid _ _ _ _ Hprimes Hgen) as Hv.
  pose proof Hv as (p & q & Hp & Hq & Hpq & Hn & Hg & Hpk & Hrest).
  pose proof (modulus_ge_4 p q Hp Hq) as H4. rewrite <- Hn in H4.
  rewrite Hpk.
  destruct (encrypt_returns message (n kp) (g kp) rtape ltac:(lia) Hm Hex)
    as (c & rtape' & Henc).
  exists c, rtape'. rewrite Henc.
  apply encrypt_sound in Henc. destruct Henc as (_ & r & Hr & Hc).
  rewrite <- Z.mul_mod in Hc by nia.
  rewrite Hg, (Z.add_comm (n kp) 1) in Hc.
  assert (Hcm : c mod (n kp * n kp)
                = ((1 + n kp) ^ message * r ^ n kp) mod (n kp * n kp))
    by (rewrite Hc; apply Z.mod_mod; nia).
  unfold multiply_ciphertext, Py.pow.
  destruct (Z.eqb_spec (n kp * n kp) 0); [nia|].
  destruct (Z.ltb_spec scalar 0) as [Hneg|Hpos].
  - destruct (inverse_ciphertext (n kp) message r c ltac:(lia) ltac:(lia) Hr Hcm)
      as [Hcop Hinv].
    rewrite Hcop. simpl.
    eexists. split; [reflexivity|]. split; [reflexivity|].
    replace ((message * scalar) mod n kp)
      with ((message * (n kp - 1) * (- scalar)) mod n kp).
    2:{ apply cong_divide. exists (message * (- scalar)). ring. }
    apply decrypt_cong with (r := Z.invmod r (n kp * n kp) ^ (- scalar));
      [exact Hv|nia| |].
    + apply Z.coprime_pow_l; [lia|]. apply coprime_of_square.
      apply Z.coprime_invmod. apply coprime_square. exact Hr.
    + rewrite Z.mod_mod by nia.
      rewrite (pow_cong _ _ _ (- scalar) ltac:(lia) Hinv).
      f_equal. rewrite Z.pow_mul_l, <- !Z.pow_mul_r by nia.
      f_equal. f_equal. ring.
  - eexists. split; [reflexivity|]. split; [reflexivity|].
    apply decrypt_cong with (r := r ^ scalar); [exact Hv|nia| |].
    + apply Z.coprime_pow_l; [lia|exact Hr].
    + rewrite Z.mod_mod by nia.
      rewrite (pow_cong _ _ _ scalar ltac:(lia) Hcm).
      f_equal. rewrite Z.pow_mul_l, <- !Z.pow_mul_r by lia.
      f_equal. f_equal. ring.
Qed.

Lemma paillier_scalar_multiplication_witness :
  exists c rtape' c',
    encrypt 7 (public_key key_pair_15) [3; 2] = Ok (c, rtape') /\
    multiply_ciphertext c (-2) (public_key key_pair_15) = Ok c' /\
    decrypt c' key_pair_15 = Ok ((7 * -2) mod n key_pair_15).
Proof.
  apply (paillier_scalar_multiplication 6 [3; 5] [] key_pair_15 7 (-2) [3; 2]).
  - repeat constructor; apply trial_division_sound; reflexivity.
  - reflexivity.
  - simpl; lia.
  - apply Exists_cons_tl, Exists_cons_hd. reflexivity.
Defined.

End ScalarMultiplication.

(** ** Errors of [encrypt], validity, and aggregation in batches *)

Section EncryptionEdges.

Import Paillier.

Lemma resample_r_outcome (m : Z) (Hm : 2 <= m) (fuel : nat) :
  forall r tape,
    (exists v, resample_r fuel m r tape = Ok v) \/
    resample_r fuel m r tape = Raise Unfinished.
Proof.
  induction fuel as [|fuel IH]; intros r tape; simpl.
  - destruct (negb (Z.gcd r m =? 1)); [right|left; eexists]; reflexivity.
  - destruct (negb (Z.gcd r m =? 1)); [|left; eexists; reflexivity].
    unfold bindR, randint. destruct (Z.ltb_spec (m - 1) 1); [lia|].
    destruct tape as [|r' tape']; [right; reflexivity|apply IH].
Qed.

(** X4.  [encrypt] raises [ValueError] exactly when the message is outside
    [0 .. n-1] or [n] is 1 (no admissible random value), whatever the random
    source gives; it never divides by zero; and when it returns, the
    message was in range: an out-of-range message is never reduced. *)
Theorem encrypt_value_error (message : Z) (public_key : Z * Z)
  (tape : list Z) :
  (encrypt message public_key tape = Raise ValueError <->
   ~ (0 <= message < fst public_key /\ 2 <= fst public_key)) /\
  encrypt message public_key tape <> Raise ZeroDivisionError /\
  (forall c tape', encrypt message public_key tape = Ok (c, tape') ->
                   0 <= message < fst public_key).
Proof.
  destruct public_key as [m gen]. cbn [fst].
  split; [|split].
  - unfold encrypt.
    destruct (Z.ltb_spec message 0); [split; [lia|reflexivity]|].
    destruct (Z.geb_spec message m); [split; [lia|reflexivity]|].
    cbn [orb]. unfold bindR at 1. unfold randint.
    destruct (Z.ltb_spec (m - 1) 1); [split; [lia|reflexivity]|].
    split; [|lia]. intros Hraise. exfalso.
    destruct tape as [|r0 tape0]; [discriminate|].
    unfold bindR in Hraise.
    destruct (resample_r_outcome m ltac:(lia) (length tape0) r0 tape0)
      as [[[r tape1] Hr]|Hr]; rewrite Hr in Hraise; [|discriminate].
    unfold lift, Py.pow, mod_, bind in Hraise.
    destruct (Z.eqb_spec (m * m) 0); [nia|].
    destruct (Z.ltb_spec message 0); [lia|].
    destruct (Z.ltb_spec m 0); [lia|].
    simpl in Hraise. destruct (Z.eqb_spec (m * m) 0); [nia|discriminate].
  - unfold encrypt.
    destruct (Z.ltb_spec message 0); [discriminate|].
    destruct (Z.geb_spec message m); [discriminate|].
    cbn [orb]. unfold bindR at 1. unfold randint.
    destruct (Z.ltb_spec (m - 1) 1); [discriminate|].
    destruct tape as [|r0 tape0]; [discriminate|].
    unfold bindR.
    destruct (resample_r_outcome m ltac:(lia) (length tape0) r0 tape0)
      as [[[r tape1] Hr]|Hr]; rewrite Hr; [|discriminate].
    unfold lift, Py.pow, mod_, bind.
    destruct (Z.eqb_spec (m * m) 0); [nia|].
    destruct (Z.ltb_spec message 0); [lia|].
    destruct (Z.ltb_spec m 0); [lia|].
    simpl. destruct (Z.eqb_spec (m * m) 0); [nia|discriminate].
  - intros c tape' Hok. apply encrypt_sound in Hok. apply Hok.
Qed.

Lemma encrypt_value_error_witness :
  encrypt 15 (15, 16) [2] = Raise ValueError /\
  encrypt 0 (1, 2) [1] = Raise ValueError /\
  0 <= 7 < fst (15, 16).
Proof.
  split; [|split].
  - apply (proj1 (encrypt_value_error 15 (15, 16) [2])). simpl. lia.
  - apply (proj1 (encrypt_value_error 0 (1, 2) [1])). simpl. lia.
  - apply (proj2 (proj2 (encrypt_value_error 7 (15, 16) [2])) 83 []).
    reflexivity.
Defined.

(** X5.  Valid ciphertexts stay valid: the sum of two integers that pass
    [verify_vote_encryption] passes it, and so does every multiple by a
    non-negative scalar. *)
Theorem valid_ciphertexts_closed (public_key : Z * Z) (c1 c2 scalar : Z) :
  verify_vote_encryption c1 public_key = true ->
  verify_vote_encryption c2 public_key = true ->
  0 <= scalar ->
  (exists a, add_ciphertexts c1 c2 public_key = Ok a /\
             verify_vote_encryption a public_key = true) /\
  (exists b, multiply_ciphertext c1 scalar public_key = Ok b /\
             verify_vote_encryption b public_key = true).
Proof.
  destruct public_key as [m gen]. intros H1 H2 Hk.
  apply verify_vote_encryption_true in H1, H2.
  destruct H1 as [Hr1 Hg1], H2 as [Hr2 Hg2].
  assert (Hmm : 1 < m * m) by lia.
  assert (Hvalid : forall x, Z.gcd x m = 1 ->
            verify_vote_encryption (x mod (m * m)) (m, gen) = true).
  { intros x Hx. apply verify_vote_encryption_true.
    pose proof (coprime_mod_square x m Hx) as Hc.
    pose proof (Z.mod_pos_bound x (m * m) ltac:(lia)) as Hb.
    split; [|exact Hc].
    destruct (Z.eq_dec (x mod (m * m)) 0) as [Hz|]; [|lia].
    rewrite Hz, Z.gcd_0_l in Hc. nia. }
  split.
  - unfold add_ciphertexts, mod_.
    destruct (Z.eqb_spec (m * m) 0); [lia|].
    eexists. split; [reflexivity|]. apply Hvalid.
    apply Z.coprime_mul_l; assumption.
  - unfold multiply_ciphertext, Py.pow.
    destruct (Z.eqb_spec (m * m) 0); [lia|].
    destruct (Z.ltb_spec scalar 0); [lia|].
    eexists. split; [reflexivity|]. apply Hvalid.
    apply Z.coprime_pow_l; [lia|exact Hg1].
Qed.

Lemma valid_ciphertexts_closed_witness :
  (exists a, add_ciphertexts 38 199 (15, 16) = Ok a /\
             verify_vote_encryption a (15, 16) = true) /\
  (exists b, multiply_ciphertext 38 0 (15, 16) = Ok b /\
             verify_vote_encryption b (15, 16) = true).
Proof.
  apply valid_ciphertexts_closed; [reflexivity|reflexivity|lia].
Defined.

Lemma product_app (l l' : list Z) :
  product (l ++ l') = product l * product l'.
Proof.
  induction l as [|a l IH].
  - change (product ([] ++ l')) with (product l').
    change (product []) with 1. ring.
  - change (product ((a :: l) ++ l')) with (a * product (l ++ l')).
    change (product (a :: l)) with (a * product l). rewrite IH. ring.
Qed.

(** X6.  Aggregation in batches: for two non-empty batches, aggregating
    their concatenation is adding the two aggregates, errors included.
    (For an empty batch it is not: its aggregate is the sentinel 0.) *)
Theorem aggregate_votes_batches (public_key : Z * Z) (cs ds : list Z) :
  cs <> [] -> ds <> [] ->
  aggregate_votes (cs ++ ds) public_key
  = (a <- aggregate_votes cs public_key ;;
     b <- aggregate_votes ds public_key ;;
     add_ciphertexts a b public_key).
Proof.
  intros Hcs Hds.
  destruct (Z.eq_dec (fst public_key) 0) as [Hz|Hnz].
  - destruct public_key as [m gen]. simpl in Hz. subst m.
    destruct cs as [|c cs]; [contradiction|].
    cbn [app aggregate_votes].
    rewrite aggregate_fold_zero by (destruct cs; [exact Hds|discriminate]).
    destruct cs as [|c' cs];
      [|rewrite aggregate_fold_zero by discriminate; reflexivity].
    cbn [foldM bind].
    destruct ds as [|d [|d' ds]]; [contradiction|reflexivity|].
    cbn [aggregate_votes]. rewrite aggregate_fold_zero by discriminate.
    reflexivity.
  - destruct (aggregate_votes_cong public_key cs Hnz Hcs) as (a & -> & Ha).
    destruct (aggregate_votes_cong public_key ds Hnz Hds) as (b & -> & Hb).
    cbn [bind].
    destruct cs as [|c cs]; [contradiction|].
    cbn [app aggregate_votes].
    rewrite aggregate_fold;
      [|exact Hnz|destruct cs; [exact Hds|discriminate]].
    destruct public_key as [m gen]. cbn [fst] in *.
    assert (Hmm : m * m <> 0) by nia.
    unfold add_ciphertexts, mod_.
    destruct (Z.eqb_spec (m * m) 0); [contradiction|]. f_equal.
    change (c * product (cs ++ ds)) with (product ((c :: cs) ++ ds)).
    rewrite product_app, Z.mul_mod, <- Ha, <- Hb, <- Z.mul_mod by assumption.
    reflexivity.
Qed.

Lemma aggregate_votes_batches_witness :
  aggregate_votes ([38; 199] ++ [88]) (15, 16)
  = (a <- aggregate_votes [38; 199] (15, 16) ;;
     b <- aggregate_votes [88] (15, 16) ;;
     add_ciphertexts a b (15, 16)).
Proof.
  apply aggregate_votes_batches; discriminate.
Defined.

End EncryptionEdges.

(** ** The tally of the admin action *)

Section AdminTally.

Import Paillier ElectionsAdmin.

(** X7.  The tally that [decrypt_tally] computes for a candidate: 0 without
    votes, and for a non-empty list of ciphertexts returned by [encrypt]
    under a generated key pair the sum of the votes modulo [n]; its
    reduction returns what [aggregate_votes] returns. *)
Theorem candidate_tally_is_sum (key_size : Z) (ptape ptape' : list Z)
  (kp : PaillierKeyPair) (votes cs : list Z) :
  Forall Z.prime ptape ->
  generate_key_pair key_size ptape = Ok (kp, ptape') ->
  Forall2 (encrypts (public_key kp)) votes cs ->
  cs <> [] ->
  candidate_tally [] kp = Ok 0 /\
  candidate_tally cs kp = Ok (total votes mod n kp) /\
  candidate_tally cs kp
  = (a <- aggregate_votes cs (public_key kp) ;; decrypt a kp).
Proof.
  intros Hprimes Hgen Henc Hne. split; [reflexivity|].
  pose proof (generate_key_pair_valid _ _ _ _ Hprimes Hgen) as Hv.
  pose proof Hv as (p & q & Hp & Hq & Hpq & Hn & Hg & Hpk & Hrest).
  pose proof (modulus_ge_4 p q Hp Hq) as H4. rewrite <- Hn in H4.
  assert (Hfold : candidate_tally cs kp
                  = (a <- aggregate_votes cs (public_key kp) ;;
                     match decrypt a kp with
                     | Ok tally => Ok tally
                     | Raise _ => Ok 0
                     end)).
  { destruct cs as [|c cs]; [contradiction|].
    unfold candidate_tally. rewrite Hpk. cbn [fst aggregate_votes].
    rewrite Z.pow_2_r. reflexivity. }
  rewrite Hfold. rewrite Hpk in *. rewrite Hg in Henc.
  destruct (aggregate_votes_cong (n kp, g kp) cs ltac:(simpl; lia) Hne)
    as (a & -> & Hcong).
  simpl in Hcong. cbn [bind].
  destruct (product_encrypted (n kp) votes cs ltac:(lia) Henc)
    as (Ht & r & Hr & Hprod).
  rewrite (decrypt_cong kp a (total votes) r Hv Ht Hr)
    by (rewrite Hcong; exact Hprod).
  split; reflexivity.
Qed.

Lemma candidate_tally_is_sum_witness :
  candidate_tally [] key_pair_15 = Ok 0 /\
  candidate_tally [38; 199; 88] key_pair_15
  = Ok (total [1; 0; 1] mod n key_pair_15) /\
  candidate_tally [38; 199; 88] key_pair_15
  = (a <- aggregate_votes [38; 199; 88] (public_key key_pair_15) ;;
     decrypt a key_pair_15).
Proof.
  apply (candidate_tally_is_sum 6 [3; 5] [] key_pair_15 [1; 0; 1]).
  - repeat constructor; apply trial_division_sound; reflexivity.
  - reflexivity.
  - repeat constructor.
    + exists [2], []. reflexivity.
    + exists [4], []. reflexivity.
    + exists [7], []. reflexivity.
  - discriminate.
Defined.

End AdminTally.

(** ** Key generation and key distribution *)

Section KeyDistribution.

Import CryptoUtil Paillier.

Lemma resample_q_draws (Q : Z -> Prop) (fuel : nat) (bits p : Z) :
  forall q tape q' tape',
    Q q -> Forall Q tape ->
    resample_q fuel bits p q tape = Ok (q', tape') ->
    Q q' /\ p <> q' /\ Forall Q tape'.
Proof.
  induction fuel as [|fuel IH]; intros q tape q' tape' Hq Ht H; simpl in H.
  - destruct (Z.eqb_spec p q); [discriminate|].
    injection H as <- <-. auto.
  - destruct (Z.eqb_spec p q).
    + unfold bindR, getPrime in H.
      destruct (bits <? 2); [discriminate|].
      destruct tape as [|q0 tape0]; [discriminate|].
      inversion Ht; subst. eapply IH; eauto.
    + injection H as <- <-. auto.
Qed.

(** What [generate_key_pair] returns, for primes drawn under a contract
    [Q]. *)
Lemma generate_key_pair_draws (Q : Z -> Prop) (key_size : Z)
  (tape tape' : list Z) (kp : PaillierKeyPair) :
  Forall Q tape ->
  generate_key_pair key_size tape = Ok (kp, tape') ->
  exists p q : Z,
    Q p /\ Q q /\ p <> q /\
    2 <= key_size / 2 /\
    kp = {| public_key := (p * q, p * q + 1);
            private_key := Z.lcm (p - 1) (q - 1);
            n := p * q; g := p * q + 1;
            lambda_val := Z.lcm (p - 1) (q - 1);
            mu := mu kp |} /\
    inverse (Z.lcm (p - 1) (q - 1)) (p * q) = Ok (mu kp) /\
    Forall Q tape'.
Proof.
  intros Ht H. unfold generate_key_pair, bindR, lift, getPrime in H.
  simpl in H.
  destruct (Z.ltb_spec (key_size / 2) 2); [discriminate|].
  destruct tape as [|p tape]; [discriminate|].
  destruct tape as [|q tape]; [discriminate|].
  inversion Ht as [|? ? Hp Ht1]; subst. inversion Ht1 as [|? ? Hq Ht2]; subst.
  destruct (resample_q _ _ p q tape) as [[q' tape1]|] eqn:Eq; [|discriminate].
  apply (resample_q_draws Q) in Eq; auto. destruct Eq as (Hq' & Hne & Ht').
  destruct (inverse _ _) as [mu0|] eqn:Ei; [|discriminate].
  unfold PaillierKeyPair_init, bind in H. simpl in H.
  injection H as <- <-.
  exists p, q'. simpl. repeat split; auto.
Qed.

(** X8.  Every key pair [generate_key_pair] returns is built from two
    distinct primes [p], [q] of its random source: [n = p * q], [g = n + 1],
    the private key is [lambda = lcm(p-1, q-1)], and [mu] inverts [lambda]
    modulo [n]; so [lambda] is coprime to [n] (otherwise the call raises),
    and the public key is not a square. *)
Theorem generate_key_pair_invariant (key_size : Z) (tape tape' : list Z)
  (kp : PaillierKeyPair) :
  Forall Z.prime tape ->
  generate_key_pair key_size tape = Ok (kp, tape') ->
  exists p q : Z,
    In p tape /\ In q tape /\ Z.prime p /\ Z.prime q /\ p <> q /\
    public_key kp = (p * q, p * q + 1) /\
    n kp = p * q /\ g kp = p * q + 1 /\
    private_key kp = Z.lcm (p - 1) (q - 1) /\
    lambda_val kp = Z.lcm (p - 1) (q - 1) /\
    (lambda_val kp * mu kp) mod n kp = 1 /\
    Z.gcd (lambda_val kp) (n kp) = 1.
Proof.
  intros Hprimes Hgen.
  assert (HQ : Forall (fun x => Z.prime x /\ In x tape) tape).
  { apply Forall_forall. intros x Hx. split; [|exact Hx].
    rewrite Forall_forall in Hprimes. auto. }
  destruct (generate_key_pair_draws _ _ _ _ _ HQ Hgen)
    as (p & q & [Hp Hip] & [Hq Hiq] & Hne & _ & Hkp & Hinv & _).
  exists p, q. rewrite Hkp. cbn [public_key private_key n g lambda_val mu].
  do 10 (split; [solve [auto]|]).
  apply inverse_sound in Hinv. destruct Hinv as [Hpos Hinv].
  pose proof (modulus_ge_4 p q Hp Hq) as H4.
  split; [rewrite Hinv; apply Z.mod_small; lia|].
  apply Z.coprime_Bezout. apply cong_divide in Hinv.
  destruct Hinv as [k Hk]. exists (mu kp), (- k). lia.
Qed.

Lemma generate_key_pair_invariant_witness :
  exists p q : Z,
    In p [3; 3; 5] /\ In q [3; 3; 5] /\ Z.prime p /\ Z.prime q /\ p <> q /\
    public_key key_pair_15 = (p * q, p * q + 1) /\
    n key_pair_15 = p * q /\ g key_pair_15 = p * q + 1 /\
    private_key key_pair_15 = Z.lcm (p - 1) (q - 1) /\
    lambda_val key_pair_15 = Z.lcm (p - 1) (q - 1) /\
    (lambda_val key_pair_15 * mu key_pair_15) mod n key_pair_15 = 1 /\
    Z.gcd (lambda_val key_pair_15) (n key_pair_15) = 1.
Proof.
  apply (generate_key_pair_invariant 6 [3; 3; 5] []).
  - repeat constructor; apply trial_division_sound; reflexivity.
  - reflexivity.
Defined.

Lemma lcm_lower_bound (a b : Z) :
  0 < a -> 0 < b -> a <> b -> 2 * Z.min a b <= Z.lcm a b.
Proof.
  intros Ha Hb Hne.
  pose proof (Z.lcm_nonneg a b) as Hl.
  assert (Hl0 : Z.lcm a b <> 0) by (rewrite Z.lcm_eq_0; lia).
  destruct (Z.divide_lcm_l a b) as [k Hk].
  destruct (Z.divide_lcm_r a b) as [j Hj].
  assert (1 <= k) by nia. assert (1 <= j) by nia.
  destruct (Z.lt_ge_cases a b).
  - destruct (Z.eq_dec j 1) as [->|]; [|nia].
    assert (2 <= k) by nia. nia.
  - destruct (Z.eq_dec k 1) as [->|]; [|nia].
    assert (2 <= j) by nia. nia.
Qed.

(** X9.  Key distribution fails for the default key size: when the draws
    of [generate_key_pair] have 256 bits or more (a key size of 512 or
    more), [lambda] is larger than any number below [2^256] that
    [ShamirSecretSharing] draws as its 256-bit field prime, so
    [generate_distributed_keys] raises [ValueError], whatever the trustees
    and the threshold. *)
Theorem generate_distributed_keys_fails (key_size : Z)
  (ptape ptape' : list Z) (kp : PaillierKeyPair)
  (self : ThresholdPaillier.ThresholdPaillier) (P : Z) (stape : list Z) :
  256 <= key_size / 2 ->
  Forall (above_bits (key_size / 2)) ptape ->
  generate_key_pair key_size ptape = Ok (kp, ptape') ->
  P < 2 ^ 256 ->
  ThresholdPaillier.generate_distributed_keys self kp (P :: stape)
  = Raise ValueError.
Proof.
  intros Hbits Hdraws Hgen HP.
  destruct (generate_key_pair_draws _ _ _ _ _ Hdraws Hgen)
    as (p & q & Hp & Hq & Hne & _ & Hkp & _ & _).
  unfold above_bits in Hp, Hq.
  assert (Hmono : 2 ^ 255 <= 2 ^ (key_size / 2 - 1))
    by (apply Z.pow_le_mono_r; lia).
  assert (E : 2 ^ 256 = 2 * 2 ^ 255) by reflexivity.
  assert (HT : 2 <= 2 ^ 255) by (vm_compute; discriminate).
  pose proof (lcm_lower_bound (p - 1) (q - 1) ltac:(lia) ltac:(lia) ltac:(lia))
    as Hlcm.
  assert (Hge : P <= private_key kp).
  { rewrite Hkp. cbn [private_key]. lia. }
  unfold ThresholdPaillier.generate_distributed_keys, bindR,
    Shamir.ShamirSecretSharing_init.
  destruct (ThresholdPaillier.threshold self
            >? ThresholdPaillier.total_trustees self);
    [reflexivity|].
  unfold bindR, getPrime, ret. simpl.
  unfold Shamir.generate_shares. cbn [Shamir.prime].
  destruct (Z.geb_spec (private_key kp) P); [reflexivity|lia].
Qed.

Lemma generate_distributed_keys_fails_witness :
  ThresholdPaillier.generate_distributed_keys
    {| ThresholdPaillier.total_trustees := 5;
       ThresholdPaillier.threshold := 3 |}
    key_pair_512 [2 ^ 256 - 189; 11; 12]
  = Raise ValueError.
Proof.
  apply (generate_distributed_keys_fails 512 [2 ^ 255 + 1; 2 ^ 255 + 3] []).
  - vm_compute. discriminate.
  - repeat constructor; unfold above_bits; vm_compute; reflexivity.
  - lazy. reflexivity.
  - vm_compute. reflexivity.
Defined.

End KeyDistribution.

(** ** Shares and their verification *)

Section ShareShape.

Import Shamir.

(** X10.  What [generate_shares] returns for a prime modulus, a secret below
    it and enough random values: exactly one share per identifier
    [1 .. total_shares], in this order and never at 0, each value in
    [0 .. prime-1] and equal to the polynomial of the secret and the drawn
    coefficients at the identifier; and it reads [threshold - 1] random
    values, no more. *)
Theorem generate_shares_shape (self : ShamirSecretSharing) (secret : Z)
  (tape : list Z) :
  Z.prime (prime self) ->
  secret < prime self ->
  (Z.to_nat (threshold self - 1) <= length tape)%nat ->
  exists shares tape',
    generate_shares self secret tape = Ok (shares, tape') /\
    map fst shares = range 1 (total_shares self + 1) /\
    len shares = Z.max 0 (total_shares self) /\
    ~ In 0 (map fst shares) /\
    Forall (fun s => 0 <= snd s < prime self /\
                     snd s = peval (secret
                                    :: firstn (Z.to_nat (threshold self - 1))
                                              tape) (fst s) mod prime self)
           shares /\
    tape' = skipn (Z.to_nat (threshold self - 1)) tape.
Proof.
  intros Hprime Hsecret Htape.
  pose proof (Z.prime_ge_2 _ Hprime) as HP.
  rewrite (generate_shares_eq self Hprime secret tape Hsecret Htape).
  eexists _, _. split; [reflexivity|].
  unfold share_polynomial. rewrite length_range.
  split; [|split; [|split; [|split]]].
  - rewrite map_map. cbn [fst]. apply map_id.
  - unfold len. rewrite length_map, length_range. lia.
  - rewrite map_map. cbn [fst]. rewrite map_id. intros H0.
    apply in_range in H0. lia.
  - apply Forall_forall. intros s Hs. apply in_map_iff in Hs.
    destruct Hs as (i & <- & _). cbn [fst snd].
    split; [apply Z.mod_pos_bound; lia|reflexivity].
  - reflexivity.
Qed.

Lemma generate_shares_shape_witness :
  exists shares tape',
    generate_shares sharing_5_3_7 3 [2; 5; 6] = Ok (shares, tape') /\
    map fst shares = range 1 (total_shares sharing_5_3_7 + 1) /\
    len shares = Z.max 0 (total_shares sharing_5_3_7) /\
    ~ In 0 (map fst shares) /\
    Forall (fun s => 0 <= snd s < prime sharing_5_3_7 /\
                     snd s = peval (3 :: firstn
                                     (Z.to_nat (threshold sharing_5_3_7 - 1))
                                     [2; 5; 6]) (fst s)
                             mod prime sharing_5_3_7)
           shares /\
    tape' = skipn (Z.to_nat (threshold sharing_5_3_7 - 1)) [2; 5; 6].
Proof.
  apply (generate_shares_shape sharing_5_3_7 3 [2; 5; 6]).
  - apply trial_division_sound. reflexivity.
  - simpl. lia.
  - simpl. lia.
Defined.

(** X11.  What [verify_share] decides on genuine shares: against
    [threshold] distinct generated shares of a secret of [0 .. prime-1], it
    accepts a candidate exactly when the candidate's value is the secret
    itself, whatever the candidate's identifier. *)
Theorem verify_share_accepts_only_secret (self : ShamirSecretSharing)
  (secret : Z) (tape : list Z) (candidate : Z * Z) :
  Z.prime (prime self) ->
  1 <= threshold self <= total_shares self ->
  total_shares self < prime self ->
  0 <= secret < prime self ->
  (Z.to_nat (threshold self - 1) <= length tape)%nat ->
  exists shares tape',
    generate_shares self secret tape = Ok (shares, tape') /\
    forall other_shares : list (Z * Z),
      NoDup other_shares -> incl other_shares shares ->
      len other_shares = threshold self ->
      verify_share self candidate other_shares = (snd candidate =? secret).
Proof.
  intros Hprime Hk Htotal Hsecret Htape.
  pose proof (Z.prime_ge_2 _ Hprime) as HP.
  destruct (reconstruct_generated_shares self secret tape Hprime Hk Htotal
              (proj2 Hsecret) Htape) as (shares & tape' & Hgen & Hsubset).
  exists shares, tape'. split; [exact Hgen|].
  intros other_shares Hnd Hincl Hlen.
  rewrite verify_share_eq by lia.
  rewrite (Hsubset other_shares Hnd Hincl Hlen), Hlen.
  destruct (Z.ltb_spec (threshold self) (threshold self - 1)); [lia|].
  rewrite Z.mod_mod, Z.mod_small by lia. apply Z.eqb_sym.
Qed.

Lemma verify_share_accepts_only_secret_witness :
  verify_share sharing_5_3_7 (4, 0) [(5, 5); (1, 3); (3, 5)] = (0 =? 3) /\
  verify_share sharing_5_3_7 (9, 3) [(5, 5); (1, 3); (3, 5)] = (3 =? 3).
Proof.
  split.
  - destruct (verify_share_accepts_only_secret sharing_5_3_7 3 [2; 5] (4, 0))
      as (shares & tape' & Hgen & Hverify).
    + apply trial_division_sound. reflexivity.
    + simpl. lia.
    + simpl. lia.
    + simpl. lia.
    + simpl. lia.
    + vm_compute in Hgen. injection Hgen as <- <-.
      apply (Hverify [(5, 5); (1, 3); (3, 5)]).
      * repeat constructor; simpl; intuition discriminate.
      * intros p Hp. simpl in Hp. simpl. intuition.
      * reflexivity.
  - reflexivity.
Defined.

End ShareShape.

(** ** What [reconstruct_secret] rejects, and what it ignores *)

Section ReconstructionEdges.

Import Shamir.

Variable self : ShamirSecretSharing.

Hypothesis prime_P : Z.prime (prime self).

Lemma _mod_inverse_zero : _mod_inverse self 0 = Raise ValueError.
Proof.
  pose proof (Z.prime_ge_2 _ prime_P) as HP.
  unfold _mod_inverse. simpl.
  destruct (Z.eqb_spec (prime self) 1); [lia|reflexivity].
Qed.

Lemma product_divide (d : Z) (l : list Z) :
  In d l -> (prime self | d) -> (prime self | product l).
Proof.
  induction l as [|a l IH]; intros Hin Hd; [contradiction|].
  change (product (a :: l)) with (a * product l).
  destruct Hin as [->|Hin].
  - apply Z.divide_mul_l. exact Hd.
  - apply Z.divide_mul_r. apply IH; assumption.
Qed.

(** One zero denominator makes the whole loop raise. *)
Lemma reconstruct_fold_raises (shares : list (Z * Z))
  (el : list (nat * (Z * Z))) :
  Forall (fun e => (fst e < length shares)%nat /\
                   snd e = nth (fst e) shares (0, 0)) el ->
  Exists (fun i => basis_denominator (map fst shares) i mod prime self = 0)
         (map fst el) ->
  forall acc,
    foldM (fun secret '(i, (x_i, y_i)) =>
             nd <- numerator_denominator self i x_i shares ;;
             let '(numerator, denominator) := nd in
             inv <- _mod_inverse self denominator ;;
             lagrange_coeff <- mod_ (numerator * inv) (prime self) ;;
             mod_ (secret + y_i * lagrange_coeff) (prime self))
          el acc
    = Raise ValueError.
Proof.
  pose proof (Z.prime_ge_2 _ prime_P) as HP.
  induction 1 as [|[i [x_i y_i]] el [Hi Hnth] _ IH]; intros Hex acc.
  - inversion Hex.
  - cbn [foldM]. simpl in Hi, Hnth.
    rewrite (numerator_denominator_eq self prime_P). cbn [bind].
    assert (Hx : x_i = nth i (map fst shares) 0)
      by (change 0 with (fst (0, 0)); rewrite map_nth, <- Hnth; reflexivity).
    fold (others i (map fst shares)).
    assert (Hden : product (map (fun x_j => x_i - x_j)
                                (others i (map fst shares)))
                   = basis_denominator (map fst shares) i)
      by (unfold basis_denominator; rewrite <- Hx; reflexivity).
    rewrite Hden.
    destruct (Z.eq_dec (basis_denominator (map fst shares) i mod prime self) 0)
      as [Hz|Hnz].
    + rewrite Hz, _mod_inverse_zero. reflexivity.
    + pose proof (Z.mod_pos_bound (basis_denominator (map fst shares) i)
                    (prime self) ltac:(lia)) as Hb.
      destruct (_mod_inverse_eq self prime_P _ ltac:(split; [|apply Hb]; lia))
        as [-> _].
      cbn [bind]. rewrite (mod_prime self prime_P). cbn [bind].
      rewrite (mod_prime self prime_P). cbn [bind].
      apply IH. cbn [map fst] in Hex.
      inversion Hex as [? ? H0|? ? H0]; subst; [contradiction|exact H0].
Qed.

(** X12.  [reconstruct_secret] raises [ValueError] when it is given fewer
    than [threshold] shares, and also when two of the first [threshold]
    shares have the same identifier modulo the prime, for instance the same
    share twice: the Lagrange denominator is then 0 and has no inverse. *)
Theorem reconstruct_secret_value_errors (shares : list (Z * Z)) :
  (len shares < threshold self ->
   reconstruct_secret self shares = Raise ValueError) /\
  (threshold self <= len shares ->
   (exists a b : nat,
       (a < b < Z.to_nat (threshold self))%nat /\
       (fst (nth a shares (0, 0)) - fst (nth b shares (0, 0)))
       mod prime self = 0) ->
   reconstruct_secret self shares = Raise ValueError).
Proof.
  pose proof (Z.prime_ge_2 _ prime_P) as HP. split.
  - intros Hlen. unfold reconstruct_secret.
    destruct (Z.ltb_spec (len shares) (threshold self)); [reflexivity|lia].
  - intros Hlen (a & b & Hab & Hcong).
    assert (Hk : 0 <= threshold self) by lia.
    rewrite reconstruct_secret_prefix by assumption.
    rewrite slice_to_nonneg by exact Hk.
    set (pts := firstn (Z.to_nat (threshold self)) shares).
    assert (Hpts : length pts = Z.to_nat (threshold self)).
    { unfold pts. rewrite length_firstn. unfold len in Hlen. lia. }
    unfold reconstruct_secret.
    destruct (Z.ltb_spec (len pts) (threshold self));
      [unfold len in *; lia|].
    rewrite slice_to_nonneg by exact Hk.
    rewrite <- Hpts, firstn_all.
    apply reconstruct_fold_raises.
    + unfold enumerate.
      eapply Forall_impl; [|apply (enumerate_nth self pts (0, 0) 0%nat)].
      intros [j s] [Hj Hs]. simpl in *. rewrite Nat.sub_0_r in Hs.
      split; [lia|exact Hs].
    + rewrite map_fst_enumerate. apply Exists_exists. exists a.
      split; [apply in_seq; lia|].
      apply Z.mod_divide; [lia|]. unfold basis_denominator.
      apply product_divide
        with (d := nth a (map fst pts) 0 - nth b (map fst pts) 0).
      * apply in_map_iff. exists (nth b (map fst pts) 0).
        split; [reflexivity|].
        apply in_others; [rewrite length_map; lia|lia].
      * apply Z.mod_divide; [lia|].
        rewrite (map_nth fst pts (0, 0) a : nth a (map fst pts) 0 = _).
        rewrite (map_nth fst pts (0, 0) b : nth b (map fst pts) 0 = _).
        unfold pts. rewrite !nth_firstn.
        rewrite (proj2 (Nat.ltb_lt a _)), (proj2 (Nat.ltb_lt b _)) by lia.
        exact Hcong.
Qed.

(** X13.  [reconstruct_secret] ignores the order of the shares: for any
    [threshold] pairs with distinct identifiers modulo the prime, generated
    or not, every permutation of them gives the same result, a value of
    [0 .. prime-1]. *)
Theorem reconstruct_secret_order_independent (shares shares' : list (Z * Z)) :
  Permutation shares shares' ->
  len shares = threshold self ->
  NoDup (map (fun s => fst s mod prime self) shares) ->
  exists secret,
    reconstruct_secret self shares = Ok secret /\
    reconstruct_secret self shares' = Ok secret /\
    0 <= secret < prime self.
Proof.
  intros Hperm Hlen Hnd. pose proof (Z.prime_ge_2 _ prime_P) as HP.
  assert (Hd : NoDup (map (fun x => x mod prime self) (map fst shares)))
    by (rewrite map_map; exact Hnd).
  assert (Hd' : NoDup (map (fun x => x mod prime self) (map fst shares'))).
  { rewrite map_map. eapply Permutation_NoDup; [|exact Hnd].
    apply Permutation_map. exact Hperm. }
  assert (Hlen' : len shares' = threshold self)
    by (unfold len in *; rewrite <- (Permutation_length Hperm); exact Hlen).
  rewrite (reconstruct_secret_eq self prime_P shares Hd Hlen).
  rewrite (reconstruct_secret_eq self prime_P shares' Hd' Hlen').
  eexists. split; [reflexivity|]. split; [|apply Z.mod_pos_bound; lia].
  f_equal.
  apply (interpolant_unique (prime self) prime_P (denominator_inverse self)
           (denominator_inverse_spec self prime_P) shares Hd).
  - rewrite (Permutation_length Hperm).
    apply length_interpolant.
  - intros m Hm.
    pose proof (nth_In shares (0, 0) Hm) as Hin.
    apply (Permutation_in _ Hperm) in Hin.
    destruct (In_nth _ _ (0, 0) Hin) as (m' & Hm' & Hnth).
    rewrite (map_nth fst shares (0, 0) m : nth m (map fst shares) 0 = _).
    rewrite (map_nth snd shares (0, 0) m : nth m (map snd shares) 0 = _).
    rewrite <- Hnth.
    rewrite <- (map_nth fst shares' (0, 0) m' : nth m' (map fst shares') 0 = _).
    rewrite <- (map_nth snd shares' (0, 0) m' : nth m' (map snd shares') 0 = _).
    apply (interpolant_at_node (prime self) prime_P (denominator_inverse self)
             (denominator_inverse_spec self prime_P) shares' Hd' m' Hm').
Qed.

End ReconstructionEdges.

Lemma reconstruct_secret_value_errors_witness :
  Shamir.reconstruct_secret sharing_5_3_7 [(1, 3); (2, 6)] = Raise ValueError /\
  Shamir.reconstruct_secret sharing_5_3_7 [(1, 3); (2, 6); (8, 3); (4, 0)]
  = Raise ValueError.
Proof.
  assert (Hprime : Z.prime (Shamir.prime sharing_5_3_7))
    by (apply trial_division_sound; reflexivity).
  split.
  - apply (proj1 (reconstruct_secret_value_errors sharing_5_3_7 Hprime _)).
    reflexivity.
  - apply (proj2 (reconstruct_secret_value_errors sharing_5_3_7 Hprime _)).
    + discriminate.
    + exists 0%nat, 2%nat. split; [simpl; lia|reflexivity].
Defined.

Lemma reconstruct_secret_order_independent_witness :
  exists secret,
    Shamir.reconstruct_secret sharing_5_3_7 [(1, 3); (3, 5); (5, 5)] = Ok secret /\
    Shamir.reconstruct_secret sharing_5_3_7 [(5, 5); (1, 3); (3, 5)] = Ok secret /\
    0 <= secret < Shamir.prime sharing_5_3_7.
Proof.
  apply reconstruct_secret_order_independent.
  - apply trial_division_sound. reflexivity.
  - apply Permutation_sym. apply (Permutation_cons_app [(1, 3); (3, 5)] []).
    apply Permutation_refl.
  - reflexivity.
  - repeat constructor; simpl; intuition discriminate.
Defined.

(** ** The key manager *)

Section KeyManagerRoundTrip.

Import Shamir KeyManager.

(** X14.  Round trip through [DistributedKeyManager]: with the prime [P]
    that the constructor draws, [1 <= threshold <= total_trustees < P] and a
    private key of [0 .. P-1], the manager is built,
    [distribute_private_key] returns one share per trustee, and
    [reconstruct_private_key] gives the key back from any [threshold]
    distinct shares; [ThresholdDecryption.generate_threshold_keys]
    distributes the private key of a key pair in the same way. *)
Theorem key_manager_round_trip (total_trustees threshold P private_key : Z)
  (tape : list Z) (kp : Paillier.PaillierKeyPair) :
  Z.prime P ->
  1 <= threshold <= total_trustees ->
  total_trustees < P ->
  0 <= private_key < P ->
  Paillier.private_key kp = private_key ->
  (Z.to_nat (threshold - 1) <= length tape)%nat ->
  exists manager shares tape',
    DistributedKeyManager_init total_trustees threshold (P :: tape)
    = Ok (manager, tape) /\
    distribute_private_key manager private_key tape = Ok (shares, tape') /\
    generate_threshold_keys {| key_manager := manager |} kp tape
    = Ok (shares, tape') /\
    len shares = total_trustees /\
    forall key_shares : list (Z * Z),
      NoDup key_shares -> incl key_shares shares ->
      len key_shares = threshold ->
      reconstruct_private_key manager key_shares = Ok private_key.
Proof.
  intros HP Hk Htotal Hkey Hkp Htape.
  set (sss := {| Shamir.total_shares := total_trustees;
                 Shamir.threshold := threshold; Shamir.prime := P |}).
  destruct (reconstruct_generated_shares sss private_key tape HP Hk Htotal
              (proj2 Hkey) Htape) as (shares & tape' & Hgen & Hsubset).
  exists {| KeyManager.total_trustees := total_trustees;
            KeyManager.threshold := threshold; shamir := sss |}, shares, tape'.
  split; [|split; [|split; [|split]]].
  - unfold DistributedKeyManager_init, bindR, ShamirSecretSharing_init.
    destruct (Z.gtb_spec threshold total_trustees); [lia|]. reflexivity.
  - exact Hgen.
  - unfold generate_threshold_keys. cbn [key_manager]. rewrite Hkp. exact Hgen.
  - rewrite (generate_shares_eq sss HP private_key tape (proj2 Hkey) Htape)
      in Hgen.
    injection Hgen as <- _. unfold len.
    rewrite length_map, length_range. simpl. lia.
  - intros key_shares Hnd Hincl Hlen. unfold reconstruct_private_key.
    cbn [shamir].
    rewrite (Hsubset key_shares Hnd Hincl Hlen). f_equal.
    apply Z.mod_small. exact Hkey.
Qed.

Lemma key_manager_round_trip_witness :
  exists manager shares tape',
    DistributedKeyManager_init 5 3 [7; 2; 5]
    = Ok (manager, [2; 5]) /\
    distribute_private_key manager 4 [2; 5] = Ok (shares, tape') /\
    generate_threshold_keys {| key_manager := manager |} key_pair_15 [2; 5]
    = Ok (shares, tape') /\
    len shares = 5 /\
    forall key_shares : list (Z * Z),
      NoDup key_shares -> incl key_shares shares ->
      len key_shares = 3 ->
      reconstruct_private_key manager key_shares = Ok 4.
Proof.
  apply (key_manager_round_trip 5 3 7 4 [2; 5] key_pair_15).
  - apply trial_division_sound. reflexivity.
  - lia.
  - lia.
  - lia.
  - reflexivity.
  - simpl. lia.
Defined.

End KeyManagerRoundTrip.

(** ** [verify_share] by the number of other shares *)

Section VerifyShareCount.

Import Shamir.

(** X15.  With fewer than [threshold - 1] other shares [verify_share]
    accepts every candidate, and with exactly [threshold - 1] it rejects
    every candidate, because the reconstruction it attempts raises and the
    exception is turned into [False]; both whatever the shares and the
    modulus are. *)
Theorem verify_share_by_count (self : ShamirSecretSharing)
  (candidate : Z * Z) (other_shares : list (Z * Z)) :
  (len other_shares < threshold self - 1 ->
   verify_share self candidate other_shares = true) /\
  (len other_shares = threshold self - 1 ->
   verify_share self candidate other_shares = false).
Proof.
  unfold verify_share, reconstruct_secret. split; intros Hlen.
  - destruct (Z.ltb_spec (len other_shares) (threshold self - 1));
      [reflexivity|lia].
  - destruct (Z.ltb_spec (len other_shares) (threshold self - 1)); [lia|].
    destruct (Z.ltb_spec (len other_shares) (threshold self)); [|lia].
    reflexivity.
Qed.

Lemma verify_share_by_count_witness :
  verify_share sharing_5_3_7 (9, 9) [(1, 3)] = true /\
  verify_share sharing_5_3_7 (5, 5) [(1, 3); (3, 5)] = false.
Proof.
  split.
  - apply (proj1 (verify_share_by_count sharing_5_3_7 (9, 9) [(1, 3)])).
    reflexivity.
  - apply (proj2 (verify_share_by_count sharing_5_3_7 (5, 5)
                    [(1, 3); (3, 5)])).
    reflexivity.
Defined.

End VerifyShareCount.
